(** * uk-rail-tickets: the fare finder's server and frontend, embedded in Rocq

    The repository has two programs: [server/index.js], an Express proxy
    with an in-memory cache and a stations mirror, and the frontend script
    ([assets/app.js]) that filters stations by distance and compares the
    cheapest fares.  Both are embedded here function by function, under the
    names the source gives them, and the properties the specification states
    about them are proved (or refuted) on the embedding. *)

From Stdlib Require Import ZArith QArith Reals Lqa Lra Lia List String Ascii Bool.
From Stdlib Require Import Sorting.Sorted Sorting.Permutation.
From stdpp Require Import base option list gmap strings pretty.

Set Warnings "-register-all".

Local Open Scope string_scope.
Local Open Scope list_scope.

(** ** JavaScript values

    The values that reach the code: what [JSON.parse] and [res.json()]
    build, plus [undefined], which a property read of a missing key gives.
    A number is a rational: every finite double is one, and the only
    operations the code applies to a number are the test against zero
    behind truthiness and the sign of a difference in a sort comparator,
    both of which the doubles compute exactly.  [NaN] and the infinities are
    not values of a JSON document written with ordinary literals and are not
    modelled.  An object is the list of its own properties in insertion
    order, each key once. *)

Module JS.

Inductive value : Type :=
| VUndefined
| VNull
| VBool (b : bool)
| VNum (n : Q)
| VStr (s : string)
| VArr (items : list value)
| VObj (props : list (string * value)).

Arguments VNum n%_Q.

(** What a [throw] carries as far as the code looks at it: the [status]
    property, if the error has one.  Errors raised by the runtime (a
    [TypeError] of a property read on [null], a rejected [fetch], a body that
    is not JSON) have none. *)
Record error : Type := Error { status : option positive }.

Definition TypeError : error := Error None.

Inductive result (A : Type) : Type :=
| Ok (a : A)
| Throw (e : error).

Arguments Ok {A} a.
Arguments Throw {A} e.

#[global] Instance result_ret : MRet result := fun _ a => Ok a.

#[global] Instance result_bind : MBind result := fun _ _ k m =>
  match m with
  | Ok a => k a
  | Throw e => Throw e
  end.

(** [try { m } catch (e) { h(e) }] *)
Definition try_catch {A} (m : result A) (h : error -> A) : A :=
  match m with
  | Ok a => a
  | Throw e => h e
  end.

Fixpoint mapM {A B} (f : A -> result B) (l : list A) : result (list B) :=
  match l with
  | [] => Ok []
  | x :: l' => y ← f x; ys ← mapM f l'; Ok (y :: ys)
  end.

(** ToBoolean *)
Definition truthy (v : value) : bool :=
  match v with
  | VUndefined | VNull => false
  | VBool b => b
  | VNum n => negb (Qeq_bool n 0)
  | VStr s => negb (String.eqb s "")
  | VArr _ | VObj _ => true
  end.

Definition nullish (v : value) : bool :=
  match v with
  | VUndefined | VNull => true
  | _ => false
  end.

(** [typeof v === "number"] *)
Definition is_number (v : value) : bool :=
  match v with
  | VNum _ => true
  | _ => false
  end.

Definition isArray (v : value) : bool :=
  match v with
  | VArr _ => true
  | _ => false
  end.

Fixpoint assoc (k : string) (ps : list (string * value)) : option value :=
  match ps with
  | [] => None
  | (k', v) :: ps' => if String.eqb k k' then Some v else assoc k ps'
  end.

(** [v.k] where [v] is neither [null] nor [undefined].  The keys the program
    reads ([fares], [adult], [price], [crs], [lat], ...) are own properties
    of objects only: on a boolean, number, string or array they are
    [undefined]. *)
Definition prop (v : value) (k : string) : value :=
  match v with
  | VObj ps => default VUndefined (assoc k ps)
  | _ => VUndefined
  end.

(** [v.k] as an expression: a [TypeError] when [v] is [null] or
    [undefined]. *)
Definition get (v : value) (k : string) : result value :=
  if nullish v then Throw TypeError else Ok (prop v k).

(** [a || b] *)
Definition or_else (a b : value) : value := if truthy a then a else b.

(** [a ?? b] *)
Definition coalesce (a b : value) : value := if nullish a then b else a.

(** [{...o, k: v}]: the own properties of [o], then [k] set to [v] (in
    place when [o] has the key, else added last).  The index properties a
    string or an array would contribute are left out: such a value has none
    of the keys read afterwards. *)
Fixpoint set_prop (k : string) (v : value) (ps : list (string * value))
  : list (string * value) :=
  match ps with
  | [] => [(k, v)]
  | (k', v') :: ps' =>
      if String.eqb k k' then (k', v) :: ps' else (k', v') :: set_prop k v ps'
  end.

Definition own_props (o : value) : list (string * value) :=
  match o with
  | VObj ps => ps
  | _ => []
  end.

Definition spread_with (o : value) (k : string) (v : value) : value :=
  VObj (set_prop k v (own_props o)).

(** The number a value is when it is one.  Used only where the code has
    already checked [typeof] (see [parseCheapestFare]). *)
Definition num (v : value) : Q :=
  match v with
  | VNum n => n
  | _ => 0
  end.

(** [Array.prototype.sort(cmp)].  The sort is stable, and for a comparator
    that is a total preorder (every comparator here is the sign of a
    difference of numbers) the outcome is fixed by that: the sorted
    permutation that keeps equal elements in their order.  It is computed
    by insertion from the right, an element going in front of the first one
    it does not exceed.  [le a b] is [cmp(a, b) <= 0]. *)
Section Sort.
Context {A : Type} (le : A -> A -> bool).

Fixpoint insert_sorted (x : A) (l : list A) : list A :=
  match l with
  | [] => [x]
  | y :: l' => if le x y then x :: y :: l' else y :: insert_sorted x l'
  end.

Definition sort (l : list A) : list A := foldr insert_sorted [] l.
End Sort.

(** [Array.prototype.slice(0, end)] with [end] already an integer
    (ToIntegerOrInfinity): a negative [end] counts from the end of the
    array. *)
Definition slice0 {A} (l : list A) (end_ : Z) : list A :=
  if (end_ <? 0)%Z
  then take (Z.to_nat (Z.max (Z.of_nat (length l) + end_) 0)) l
  else take (Z.to_nat end_) l.

End JS.

Import JS.

(** ** Text: trimming and URL encoding

    A JavaScript string is held as the bytes of its UTF-8 encoding. *)

Module Text.

Definition byte (c : ascii) : nat := nat_of_ascii c.

(** The white space [String.prototype.trim] removes, by encoded length:
    TAB LF VT FF CR SP; U+00A0; U+1680, U+2000..U+200A, U+2028, U+2029,
    U+202F, U+205F, U+3000 and U+FEFF. *)
Definition ws1 (a : ascii) : bool :=
  (Nat.leb 9 (byte a) && Nat.leb (byte a) 13) || Nat.eqb (byte a) 32.

Definition ws2 (a b : ascii) : bool :=
  Nat.eqb (byte a) 194 && Nat.eqb (byte b) 160.

Definition ws3 (a b c : ascii) : bool :=
  (Nat.eqb (byte a) 225 && Nat.eqb (byte b) 154 && Nat.eqb (byte c) 128)
  || (Nat.eqb (byte a) 226 && Nat.eqb (byte b) 128
      && ((Nat.leb 128 (byte c) && Nat.leb (byte c) 138)
          || Nat.eqb (byte c) 168 || Nat.eqb (byte c) 169
          || Nat.eqb (byte c) 175))
  || (Nat.eqb (byte a) 226 && Nat.eqb (byte b) 129 && Nat.eqb (byte c) 159)
  || (Nat.eqb (byte a) 227 && Nat.eqb (byte b) 128 && Nat.eqb (byte c) 128)
  || (Nat.eqb (byte a) 239 && Nat.eqb (byte b) 187 && Nat.eqb (byte c) 191).

(** The string consists of white space only. *)
Fixpoint all_ws (s : string) : bool :=
  match s with
  | EmptyString => true
  | String a r =>
      if ws1 a then all_ws r
      else match r with
           | EmptyString => false
           | String b r2 =>
               if ws2 a b then all_ws r2
               else match r2 with
                    | EmptyString => false
                    | String c r3 => ws3 a b c && all_ws r3
                    end
           end
  end.

Fixpoint trimStart (s : string) : string :=
  match s with
  | EmptyString => EmptyString
  | String a r =>
      if ws1 a then trimStart r
      else match r with
           | EmptyString => s
           | String b r2 =>
               if ws2 a b then trimStart r2
               else match r2 with
                    | EmptyString => s
                    | String c r3 => if ws3 a b c then trimStart r3 else s
                    end
           end
  end.

Fixpoint trimEnd (s : string) : string :=
  match s with
  | EmptyString => EmptyString
  | String a r => if all_ws s then EmptyString else String a (trimEnd r)
  end.

Definition trim (s : string) : string := trimEnd (trimStart s).

Definition is_alnum (a : ascii) : bool :=
  (Nat.leb 48 (byte a) && Nat.leb (byte a) 57)
  || (Nat.leb 65 (byte a) && Nat.leb (byte a) 90)
  || (Nat.leb 97 (byte a) && Nat.leb (byte a) 122).

Definition one_of (set : string) (a : ascii) : bool :=
  existsb (Ascii.eqb a) (list_ascii_of_string set).

Definition hex_digit (n : nat) : ascii :=
  ascii_of_nat (if Nat.ltb n 10 then 48 + n else 55 + n).

Definition percent (a : ascii) : string :=
  String "%" (String (hex_digit (byte a / 16))
                     (String (hex_digit (byte a mod 16)) EmptyString)).

Fixpoint percent_encode (keep : ascii -> bool) (plus : bool) (s : string)
  : string :=
  match s with
  | EmptyString => EmptyString
  | String a r =>
      (if keep a then String a EmptyString
       else if plus && Nat.eqb (byte a) 32 then "+"
       else percent a) +:+ percent_encode keep plus r
  end.

Definition encodeURIComponent : string -> string :=
  percent_encode (fun a => is_alnum a || one_of "-_.!~*'()" a) false.

(** The application/x-www-form-urlencoded serialiser of
    [URLSearchParams.prototype.toString]. *)
Definition form_encode : string -> string :=
  percent_encode (fun a => is_alnum a || one_of "*-._" a) true.

Definition URLSearchParams : Type := list (string * string).

(** [params.set(name, value)] *)
Fixpoint set (name val : string) (ps : URLSearchParams) : URLSearchParams :=
  match ps with
  | [] => [(name, val)]
  | (n, v) :: r =>
      if String.eqb n name
      then (n, val) :: filter (fun p => negb (String.eqb (fst p) name) = true) r
      else (n, v) :: set name val r
  end.

Fixpoint toString (ps : URLSearchParams) : string :=
  match ps with
  | [] => ""
  | (n, v) :: r =>
      form_encode n +:+ "=" +:+ form_encode v
      +:+ match r with [] => "" | _ => "&" +:+ toString r end
  end.

End Text.

(** ** What [fetch] meets

    [fetch(url)] either rejects or resolves to a response with a status and
    a body; reading the body can fail, and [res.json()] rejects on a body
    that is not JSON.  An HTTP status is a positive number. *)

Module Net.

Inductive body : Type :=
| Unreadable
| NotJson
| Json (v : value).

Inductive reply : Type :=
| Rejected
| Response (status : positive) (b : body).

(** [res.ok] *)
Definition ok (status : positive) : bool :=
  (200 <=? status)%positive && (status <=? 299)%positive.

End Net.

Import Net.

(** ** The server (server/index.js) *)

Module Server.

(** *** The process state and its surroundings *)

Record entry : Type := Entry { value_of : value; expires : Z }.

Inductive event : Type :=
| CacheGet (key : string)
| CacheSet (key : string)
| Fetch (url : string)
| ReadFile
| WriteFile.

(** [cache] is the module-level [Map]; [now] is what [Date.now()] reads;
    [file] is the text of data/stations.json ([None]: it cannot be read);
    [log] records every access to the cache, the network and the file. *)
Record state : Type := State {
  cache : gmap string entry;
  now : Z;
  file : option string;
  log : list event
}.

Definition note (ev : event) (s : state) : state :=
  State (cache s) (now s) (file s) (log s ++ [ev]).

Definition with_cache (c : gmap string entry) (s : state) : state :=
  State c (now s) (file s) (log s).

Definition advance (ms : Z) (s : state) : state :=
  State (cache s) (now s + ms) (file s) (log s).

Definition with_file (f : option string) (s : state) : state :=
  State (cache s) (now s) f (log s).

(** What is outside the process: what the upstream answers to a GET of a
    URL, how long that takes, and whether the data directory can be
    written. *)
Record world : Type := World {
  upstream : string -> reply;
  elapsed : string -> Z;
  writable : bool
}.

(** [TTL], from the environment or the defaults. *)
Record ttl : Type := Ttl { STATIONS_MS : Z; FARES_MS : Z; SEARCH_MS : Z }.

Record response : Type := Res { code : positive; payload : value }.

(** *** The cache *)

Definition putCache (key : string) (v : value) (ttlMs : Z)
    (nw : Z) (c : gmap string entry) : gmap string entry :=
  let expires := (nw + ttlMs)%Z in
  <[key := Entry v expires]> c.

Definition getCache (key : string) (nw : Z) (c : gmap string entry)
  : value * gmap string entry :=
  match c !! key with
  | None => (VNull, c)
  | Some hit =>
      if (nw >? expires hit)%Z then (VNull, delete key c)
      else (value_of hit, c)
  end.

(** The two as the process runs them, on its state. *)
Definition putCacheS (key : string) (v : value) (ttlMs : Z) (s : state)
  : state :=
  note (CacheSet key) (with_cache (putCache key v ttlMs (now s) (cache s)) s).

Definition getCacheS (key : string) (s : state) : value * state :=
  let '(v, c) := getCache key (now s) (cache s) in
  (v, note (CacheGet key) (with_cache c s)).

Section Handlers.
Context (JSON_parse : string -> option value)
        (JSON_stringify : value -> string)
        (w : world) (TTL : ttl).

Definition cachedFetchJson (url : string) (ttlMs : Z) (s : state)
  : result value * state :=
  let key := "fetch:" +:+ url in
  let '(hit, s) := getCacheS key s in
  if truthy hit then (Ok hit, s)
  else
    let s := advance (elapsed w url) (note (Fetch url) s) in
    match upstream w url with
    | Rejected => (Throw (Error None), s)
    | Response st b =>
        if negb (ok st) then
          match b with
          | Unreadable => (Throw (Error None), s)
          | _ => (Throw (Error (Some st)), s)
          end
        else
          match b with
          | Json json => (Ok json, putCacheS key json ttlMs s)
          | _ => (Throw (Error None), s)
          end
    end.

(** [res.json(v)] and [res.status(e.status || 502).json({ error: msg })] *)
Definition res_json (v : value) : response := Res 200 v.

(** [e.status || 502]: a status, being positive, is truthy. *)
Definition status_or_502 (e : error) : positive :=
  match status e with
  | Some st => st
  | None => 502
  end.

Definition res_error (e : error) (msg : string) : response :=
  Res (status_or_502 e) (VObj [("error", VStr msg)]).

Definition stationsRemote : string :=
  "https://raw.githubusercontent.com/davwheat/uk-railway-stations/main/stations.json".

(** The write-through [mkdir(...).then(() => writeFile(...)).catch(()=>{})] *)
Definition write_through (json : value) (s : state) : state :=
  if writable w then with_file (Some (JSON_stringify json)) (note WriteFile s)
  else note WriteFile s.

(** GET /api/stations *)
Definition api_stations (s : state) : response * state :=
  let '(r, s) := cachedFetchJson stationsRemote (STATIONS_MS TTL) s in
  match r with
  | Ok json => (res_json json, write_through json s)
  | Throw e =>
      let s := note ReadFile s in
      match file s ≫= JSON_parse with
      | Some v => (res_json v, s)
      | None => (res_error e "Failed to retrieve stations", s)
      end
  end.

(** [refreshStationsBackground]: the same fetch and write, with every
    failure caught and logged to the console only. *)
Definition refreshStationsBackground (s : state) : state :=
  let '(r, s) := cachedFetchJson stationsRemote (STATIONS_MS TTL) s in
  match r with
  | Ok json => write_through json s
  | Throw e => s
  end.

(** [req.query]: each parameter of the query string is absent or a
    string. *)
Definition qvalue (q : gmap string string) (k : string) : value :=
  match q !! k with
  | Some v => VStr v
  | None => VUndefined
  end.

(** [(req.query.term || "").toString().trim()] *)
Definition term_of (q : gmap string string) : string :=
  match or_else (qvalue q "term") (VStr "") with
  | VStr t => Text.trim t
  | _ => ""
  end.

Definition search (endpoint failure : string) (q : gmap string string)
    (s : state) : response * state :=
  let term := term_of q in
  if negb (truthy (VStr term)) then (res_json (VArr []), s)
  else
    let url := endpoint +:+ Text.encodeURIComponent term in
    let '(r, s) := cachedFetchJson url (SEARCH_MS TTL) s in
    match r with
    | Ok json => (res_json json, s)
    | Throw e => (res_error e failure, s)
    end.

(** GET /api/loc *)
Definition api_loc : gmap string string -> state -> response * state :=
  search "https://gw.brfares.com/legacy_ac_loc?term="
         "Failed to search locations".

(** GET /api/railcards *)
Definition api_railcards : gmap string string -> state -> response * state :=
  search "https://gw.brfares.com/legacy_ac_rlc?term="
         "Failed to search railcards".

(** The text [URLSearchParams] takes from a query parameter, which is a
    string wherever the handler passes one on. *)
Definition str (v : value) : string :=
  match v with
  | VStr t => t
  | _ => ""
  end.

(** [if (v) params.set(name, sent)] *)
Definition set_if (v : value) (name sent : string)
    (ps : Text.URLSearchParams) : Text.URLSearchParams :=
  if truthy v then Text.set name sent ps else ps.

(** The parameters GET /api/fares sends upstream. *)
Definition fares_params (orig dest date time rlc rtn : value)
  : Text.URLSearchParams :=
  let params := [("orig", str orig); ("dest", str dest)] in
  let params := set_if date "date" (str date) params in
  let params := set_if time "time" (str time) params in
  let params := set_if rlc "rlc" (str rlc) params in
  set_if rtn "rtn" "1" params.

Definition fares_url (q : gmap string string) : string :=
  "https://gw.brfares.com/legacy_querysimple?"
  +:+ Text.toString
        (fares_params (qvalue q "orig") (qvalue q "dest") (qvalue q "date")
                      (qvalue q "time") (qvalue q "rlc") (qvalue q "rtn")).

(** GET /api/fares *)
Definition api_fares (q : gmap string string) (s : state)
  : response * state :=
  if negb (truthy (qvalue q "orig")) || negb (truthy (qvalue q "dest"))
  then (Res 400 (VObj [("error", VStr "orig and dest are required")]), s)
  else
    let '(r, s) := cachedFetchJson (fares_url q) (FARES_MS TTL) s in
    match r with
    | Ok json => (res_json json, s)
    | Throw e => (res_error e "Failed to fetch fares", s)
    end.

End Handlers.

(** *** The forwarding rule, in the specification's words

    A parameter is given when it is present and not empty; an optional
    parameter that is given is forwarded with its value. *)

Definition nonempty (o : option string) : bool :=
  match o with
  | Some t => negb (String.eqb t "")
  | None => false
  end.

Definition forwarded (name : string) (o : option string)
  : Text.URLSearchParams :=
  match o with
  | Some t => if nonempty o then [(name, t)] else []
  | None => []
  end.

(** *** The answer for the outcome of a fetch

    200 with the document, or the status of the failure (502 when it has
    none) with an [{error}] body that carries the endpoint's message. *)

Definition answer_for (failure : string) (r : result value) : response :=
  match r with
  | Ok json => Res 200 json
  | Throw e => Res (status_or_502 e) (VObj [("error", VStr failure)])
  end.

End Server.

(** ** The frontend (assets/app.js) *)

Module Frontend.

(** *** State

    [STATIONS], [cache.stations] and [cache.fares].  A fares cache key is
    [JSON.stringify({ orig, dest, ...opts })]; that text and the object
    determine each other, and the key is held as the object. *)

Record options : Type := Options {
  journey : string;
  date : option string;
  time : option string;
  rlc : option string
}.

Definition fares_key : Type :=
  (string * string * (string * option string * option string * option string)).

Definition cacheKey (orig dest : string) (opts : options) : fares_key :=
  (orig, dest, (journey opts, date opts, time opts, rlc opts)).

Record state : Type := State {
  STATIONS : list value;
  cache_stations : option (list value);
  cache_fares : gmap fares_key value
}.

(** *** loadStations *)

(** [a && b] *)
Definition and_also (a b : value) : value := if truthy a then b else a.

(** [s => s.crs && s.lat && s.long], as the filter reads it *)
Definition has_code_and_coordinates (s : value) : result bool :=
  crs ← get s "crs";
  lat ← get s "lat";
  long ← get s "long";
  Ok (truthy (and_also (and_also crs lat) long)).

Fixpoint filterM {A} (f : A -> result bool) (l : list A) : result (list A) :=
  match l with
  | [] => Ok []
  | x :: l' =>
      keep ← f x; r ← filterM f l'; Ok (if keep : bool then x :: r else r)
  end.

Definition to_station (s : value) : value :=
  VObj [("name", prop s "name"); ("crs", prop s "crs"); ("lat", prop s "lat");
        ("lon", or_else (prop s "long") (prop s "lon"))].

(** [raw.filter(...).map(...)]: a [TypeError] when [raw] has no [filter]. *)
Definition stations_of (raw : value) : result (list value) :=
  match raw with
  | VArr items =>
      kept ← filterM has_code_and_coordinates items;
      Ok (map to_station kept)
  | _ => Throw TypeError
  end.

Definition json_of (r : reply) : result value :=
  match r with
  | Response st (Json v) => if ok st then Ok v else Throw (Error None)
  | _ => Throw (Error None)
  end.

Definition loadStations (fetch : string -> reply) (st : state)
  : result unit * state :=
  match cache_stations st with
  | Some cached => (Ok (), State cached (cache_stations st) (cache_fares st))
  | None =>
      match raw ← json_of (fetch "/api/stations"); stations_of raw with
      | Ok stations => (Ok (), State stations (Some stations) (cache_fares st))
      | Throw e => (Throw e, st)
      end
  end.

(** *** Distances, in exact arithmetic

    [haversine] and [findNearbyStations] read on the real numbers: the
    formula and the pipeline of the source with every operation exact.  This
    is the reading for what does not depend on rounding (symmetry, an empty
    result, the order of stations at equal distances).  The reading on the
    doubles themselves, where a distance can be [NaN], is [Doubles] below. *)

Record LatLon : Type := { lat : R; lon : R }.

(** An element of [STATIONS] as the distance code reads it: its coordinates
    are numbers. *)
Record Station : Type := {
  name : value;
  crs : value;
  position :> LatLon
}.

(** [{...s, distance}] *)
Record Nearby : Type := { station : Station; distance : R }.

#[global] Instance Rle_decision : RelDecision Rle := Rle_dec.
#[global] Instance Rlt_decision : RelDecision Rlt := Rlt_dec.

(** [Math.atan2(y, x)] *)
Definition atan2 (y x : R) : R :=
  if decide (0 < x)%R then atan (y / x)
  else if decide (x < 0)%R then
    if decide (0 <= y)%R then (atan (y / x) + PI)%R else (atan (y / x) - PI)%R
  else if decide (0 < y)%R then (PI / 2)%R
  else if decide (y < 0)%R then (- (PI / 2))%R
  else 0%R.

Definition toRadians (d : R) : R := (d * PI / 180)%R.

Definition haversine (a b : LatLon) : R :=
  let R := 6371%R in
  let dLat := toRadians (lat b - lat a) in
  let dLon := toRadians (lon b - lon a) in
  let s1 := ((sin (dLat / 2)) ^ 2
             + cos (toRadians (lat a)) * cos (toRadians (lat b))
               * (sin (dLon / 2)) ^ 2)%R in
  let c := (2 * atan2 (sqrt s1) (sqrt (1 - s1)))%R in
  (R * c)%R.

(** [(a, b) => a.distance - b.distance], as [sort] reads it *)
Definition by_distance (a b : Nearby) : bool :=
  bool_decide (distance a - distance b <= 0)%R.

Definition findNearbyStations (stations : list Station) (center : LatLon)
    (radiusKm : R) (limit : Z) : list Nearby :=
  let withDist := map (fun s => Build_Nearby s (haversine center s)) stations in
  slice0
    (JS.sort by_distance
       (filter (fun s => (distance s <= radiusKm)%R) withDist))
    limit.

(** *** parseCheapestFare *)

Definition getPrice (f : value) : result value :=
  adult ← get f "adult";
  r ← (if is_number adult then Ok adult
       else
         price ← get f "price";
         if truthy price then get price "adult" else Ok price);
  Ok (coalesce r VNull).

Definition by_p (a b : value) : bool :=
  Qle_bool (num (prop a "p") - num (prop b "p")) 0.

Definition parseCheapestFare (faresJson : value) : result value :=
  if negb (truthy faresJson) || negb (isArray (prop faresJson "fares"))
  then Ok VNull
  else
    mapped ← mapM (fun f => p ← getPrice f; Ok (spread_with f "p" p))
                  (match prop faresJson "fares" with
                   | VArr fares => fares
                   | _ => []
                   end);
    let withPrice := filter (fun f => is_number (prop f "p") = true) mapped in
    if (length withPrice =? 0)%nat then Ok VNull
    else Ok (default VUndefined (head (JS.sort by_p withPrice))).

(** *** getFares *)

Definition opt_value (o : option string) : value :=
  match o with
  | Some t => VStr t
  | None => VUndefined
  end.

Definition set_if (v : value) (name sent : string)
    (ps : Text.URLSearchParams) : Text.URLSearchParams :=
  if truthy v then Text.set name sent ps else ps.

Definition fares_url (orig dest : string) (opts : options) : string :=
  let params := [("orig", orig); ("dest", dest)] in
  let params := set_if (opt_value (date opts)) "date" (default "" (date opts)) params in
  let params := set_if (opt_value (time opts)) "time" (default "" (time opts)) params in
  let params := set_if (opt_value (rlc opts)) "rlc" (default "" (rlc opts)) params in
  let params :=
    if String.eqb (journey opts) "return" then Text.set "rtn" "1" params
    else params in
  "/api/fares" +:+ "?" +:+ Text.toString params.

Definition getFares (fetch : string -> reply) (orig dest : string)
    (opts : options) (c : gmap fares_key value)
  : result value * gmap fares_key value :=
  let key := cacheKey orig dest opts in
  match c !! key with
  | Some cached => (Ok cached, c)
  | None =>
      match json_of (fetch (fares_url orig dest opts)) with
      | Ok json => (Ok json, <[key := json]> c)
      | Throw e => (Throw e, c)
      end
  end.

(** *** handleCompare: the loop over the selected origins

    Lines 277 to 303 of [handleCompare]: the loop, the sort and what is
    shown.  The destination code, its name and the options are parameters:
    what lines 254 to 271 resolve them to, when that is text. *)

Definition stationByCRS (stations : list value) (crs : string) : value :=
  default (VObj [("name", VStr crs); ("crs", VStr crs)])
    (find (fun s => match prop s "crs" with
                    | VStr c => String.eqb c crs
                    | _ => false
                    end) stations).

Record row : Type := Row {
  origin : string;
  originName : value;
  dest : string;
  destName : string;
  ticket : value;
  ticketName : value;
  price : value
}.

Definition make_row (stations : list value) (crs destCRS destName : string)
    (cheapest : value) : row :=
  let origin := stationByCRS stations crs in
  Row crs
      (or_else (prop origin "name") (VStr crs))
      destCRS
      destName
      (or_else (or_else (prop cheapest "ticket") (prop cheapest "ticket_code"))
               (VStr ""))
      (or_else (or_else (prop cheapest "name") (prop cheapest "ticket_name"))
               (VStr "Cheapest"))
      (prop cheapest "p").

(** [(a, b) => a.price - b.price], as [sort] reads it *)
Definition by_price (a b : row) : bool :=
  Qle_bool (num (price a) - num (price b)) 0.

Section Compare.
Context (fetch : string -> reply) (stations : list value)
        (destCRS destName : string) (opts : options).

(** The body of [for (const crs of checked) { try { ... } catch { } }]:
    the rows so far and the fares cache, before and after one origin. *)
Definition compare_one (crs : string)
    (acc : list row * gmap fares_key value)
  : list row * gmap fares_key value :=
  let '(rows, c) := acc in
  let '(fetched, c) := getFares fetch crs destCRS opts c in
  (try_catch
     (fares ← fetched;
      cheapest ← parseCheapestFare fares;
      Ok (if truthy cheapest
          then rows ++ [make_row stations crs destCRS destName cheapest]
          else rows))
     (fun _ => rows),
   c).

Definition compare_loop (checked : list string)
    (acc : list row * gmap fares_key value)
  : list row * gmap fares_key value :=
  foldl (fun acc crs => compare_one crs acc) acc checked.

(** What one turn of the loop adds for an origin, seen from the cache [c]
    the comparison starts with: the row made from what [parseCheapestFare]
    returns when [getFares] succeeds and [parseCheapestFare] returns a truthy
    value; nothing when either throws or the value is falsy. *)
Definition yields (c : gmap fares_key value) (crs : string) : option row :=
  match fst (getFares fetch crs destCRS opts c) with
  | Ok fares =>
      match parseCheapestFare fares with
      | Ok cheapest =>
          if truthy cheapest
          then Some (make_row stations crs destCRS destName cheapest)
          else None
      | Throw _ => None
      end
  | Throw _ => None
  end.

(** What the page shows afterwards: the status line and, when
    [renderResults] ran, the rows it was given. *)
Record outcome : Type := Outcome {
  status_text : string;
  status_error : bool;
  rendered : option (list row)
}.

(** The loop and what follows it: sort, [renderResults], [setStatus]. *)
Definition compare_and_show (checked : list string)
    (c : gmap fares_key value) : outcome * gmap fares_key value :=
  let '(rows, c) := compare_loop checked ([], c) in
  let rows := JS.sort by_price rows in
  (Outcome (if (length rows =? 0)%nat then "No routes found."
            else "Found " +:+ pretty (length rows) +:+ " routes.")
           false (Some rows),
   c).

End Compare.

(** *** The "Select all" button

    The check boxes of the nearby list, in document order: the station code
    each carries as its value, and whether it is checked. *)

Record checkbox : Type := Checkbox { box_value : string; box_checked : bool }.

(** [selectAllNearby(toggleTo)] *)
Definition selectAllNearby (toggleTo : bool) (boxes : list checkbox)
  : list checkbox :=
  map (fun cb => Checkbox (box_value cb) toggleTo) boxes.

(** The click handler of the toggle: the boxes afterwards and the text of
    the button.  [boxes.length && boxes.every(b => b.checked)] is falsy for
    an empty list. *)
Definition toggle_click (boxes : list checkbox) : list checkbox * string :=
  let allChecked :=
    if (length boxes =? 0)%nat then false else forallb box_checked boxes in
  (selectAllNearby (negb allChecked) boxes,
   if negb allChecked then "Clear all" else "Select all").

(** [qsa(".nearby-check").filter(cb => cb.checked).map(cb => cb.value)], the
    selection [handleCompare] starts from *)
Definition checked_values (boxes : list checkbox) : list string :=
  map box_value (filter (fun cb => box_checked cb = true) boxes).

(** *** A priced fare, in the specification's words

    A fare has a numeric adult price when a number stands under [adult], or
    under [adult] within [price]. *)

Definition adult_price (f : value) : option Q :=
  match prop f "adult" with
  | VNum n => Some n
  | _ =>
      match prop (prop f "price") "adult" with
      | VNum n => Some n
      | _ => None
      end
  end.

End Frontend.

(** ** Distances, in double precision

    [haversine] and [findNearbyStations] on the numbers the program computes
    with.  A JavaScript number is an IEEE 754 double: a number, an infinity
    or [NaN]; the operators round, and [Math.sin], [Math.cos], [Math.sqrt]
    and [Math.atan2] are approximations that the language leaves to the
    implementation.  The arithmetic is therefore a structure that the
    definitions are read over, operation by operation as the source has
    them. *)

Module Doubles.

Class Arithmetic : Type := {
  double : Type;
  (** an integer literal: [0], [1], [2], [180], [6371] *)
  lit : Z -> double;
  Math_PI : double;
  add : double -> double -> double;
  sub : double -> double -> double;
  mul : double -> double -> double;
  div : double -> double -> double;
  (** [a ** b] *)
  pow : double -> double -> double;
  Math_sin : double -> double;
  Math_cos : double -> double;
  Math_sqrt : double -> double;
  Math_atan2 : double -> double -> double;
  (** [a <= b] and [a < b] *)
  leb : double -> double -> bool;
  ltb : double -> double -> bool;
  (** [Number.isNaN] *)
  is_nan : double -> bool
}.

(** What IEEE 754 gives for comparison and subtraction.  [NaN] compares
    false with everything.  The numbers and the two infinities are totally
    ordered.  For [a] and [b] other than [NaN] the difference [a - b] is
    above 0 exactly when [a <= b] fails: the difference of two different
    numbers is never rounded to 0 and an overflow keeps the sign, and
    where the difference is [NaN] (an infinity minus itself) [a <= b]
    holds and [0 < NaN] does not. *)
Class Laws (A : Arithmetic) : Prop := {
  leb_numbers : forall a b : double,
    leb a b = true -> is_nan a = false /\ is_nan b = false;
  leb_total : forall a b : double,
    is_nan a = false -> is_nan b = false -> leb a b = true \/ leb b a = true;
  leb_trans : forall a b c : double,
    leb a b = true -> leb b c = true -> leb a c = true;
  sub_sign : forall a b : double,
    is_nan a = false -> is_nan b = false ->
    ltb (lit 0) (sub a b) = negb (leb a b)
}.

Section Distances.
Context {A : Arithmetic}.

Record LatLon : Type := { lat : double; lon : double }.

(** An element of [STATIONS] as the distance code reads it: its coordinates
    are numbers. *)
Record Station : Type := {
  name : value;
  crs : value;
  position :> LatLon
}.

(** [{...s, distance}] *)
Record Nearby : Type := { station : Station; distance : double }.

Definition toRadians (d : double) : double := div (mul d Math_PI) (lit 180).

Definition haversine (a b : LatLon) : double :=
  let R := lit 6371 in
  let dLat := toRadians (sub (lat b) (lat a)) in
  let dLon := toRadians (sub (lon b) (lon a)) in
  let s1 :=
    add (pow (Math_sin (div dLat (lit 2))) (lit 2))
        (mul (mul (Math_cos (toRadians (lat a))) (Math_cos (toRadians (lat b))))
             (pow (Math_sin (div dLon (lit 2))) (lit 2))) in
  let c := mul (lit 2) (Math_atan2 (Math_sqrt s1) (Math_sqrt (sub (lit 1) s1))) in
  mul R c.

(** [(a, b) => a.distance - b.distance], as [sort] reads it: [a] goes after
    [b] when the difference is above 0; a difference that is [NaN] counts
    as 0. *)
Definition by_distance (a b : Nearby) : bool :=
  negb (ltb (lit 0) (sub (distance a) (distance b))).

Definition findNearbyStations (stations : list Station) (center : LatLon)
    (radiusKm : double) (limit : Z) : list Nearby :=
  let withDist := map (fun s => Build_Nearby s (haversine center s)) stations in
  slice0
    (JS.sort by_distance
       (filter (fun s => leb (distance s) radiusKm = true) withDist))
    limit.
End Distances.

End Doubles.

(** ** Sample data *)

Definition fare (adult : Q) (ticket : string) : value :=
  VObj [("adult", VNum adult); ("ticket", VStr ticket)].

Definition raw_station (code : string) (lat long : Q) : value :=
  VObj [("name", VStr code); ("crs", VStr code);
        ("lat", VNum lat); ("long", VNum long)].

(** A station on the Greenwich meridian: its longitude is the number 0. *)
Definition on_the_meridian : value := raw_station "GNW" 51.4781 0.

(** A fare service that answers for Paddington and King's Cross and fails
    for Euston. *)
Definition fares_service (url : string) : reply :=
  if String.eqb url "/api/fares?orig=PAD&dest=MAN"
  then Response 200
         (Json (VObj [("fares", VArr [fare 4500 "SVR"; fare 3200 "OFF"])]))
  else if String.eqb url "/api/fares?orig=KGX&dest=MAN"
  then Response 200 (Json (VObj [("fares", VArr [fare 2100 "ADV"])]))
  else if String.eqb url "/api/fares?orig=EUS&dest=MAN"
  then Response 503 NotJson
  else Rejected.

Definition single : Frontend.options := Frontend.Options "single" None None None.

(** An entry with its longitude under [lon]. *)
Definition lon_only : value :=
  VObj [("name", VStr "EUS"); ("crs", VStr "EUS");
        ("lat", VNum 51.5282); ("lon", VNum (-0.1337))].

(** A world in which every upstream request is answered with [null]. *)
Definition answers_null : Server.world :=
  Server.World (fun _ => Response 200 (Json VNull)) (fun _ => 20%Z) true.

(** A world in which every upstream request is answered with [v]. *)
Definition answers (v : value) : Server.world :=
  Server.World (fun _ => Response 200 (Json v)) (fun _ => 20%Z) true.

(** A world in which the upstream answers 503 with a page of text. *)
Definition overloaded : Server.world :=
  Server.World (fun _ => Response 503 NotJson) (fun _ => 20%Z) true.

(** A process that has just started: nothing cached, no fallback file. *)
Definition fresh : Server.state := Server.State ∅ 0 None [].

(** A stand-in for [JSON.stringify] and [JSON.parse] on the one document
    [[]]. *)
Definition print_brackets (v : value) : string := "[]".

(** A world in which no upstream request gets through. *)
Definition unreachable : Server.world :=
  Server.World (fun _ => Rejected) (fun _ => 0%Z) true.

(** The default TTLs. *)
Definition day : Server.ttl := Server.Ttl 86400000 600000 3600000.

(** A process whose cache holds [v] for the URL [u], put at time 0 with the
    fares TTL, one millisecond later. *)
Definition holding (v : value) : Server.state :=
  Server.State (Server.putCache "fetch:u" v 600000 0 ∅) 1 None [].

(** A fresh process with a fallback file holding the empty array. *)
Definition with_fallback : Server.state := Server.State ∅ 0 (Some "[]") [].

(** A stand-in for [JSON.parse] that knows one document, and one for
    [JSON.stringify]. *)
Definition parse_empty_array (raw : string) : option value :=
  if String.eqb raw "[]" then Some (VArr []) else None.

Definition print_nothing (v : value) : string := "".

(** A space, a tab and a no-break space (U+00A0, two bytes). *)
Definition blank : string :=
  String " " (String "009" (String "194" (String "160" EmptyString))).

(** The query [orig=PAD&dest=MAN&rtn=0]. *)
Definition return_flag_zero : gmap string string :=
  <["rtn" := "0"]> (<["dest" := "MAN"]> {[ "orig" := "PAD" ]}).

Definition charing_cross : Frontend.LatLon :=
  {| Frontend.lat := 51.508; Frontend.lon := -0.125 |}.

Definition CHX : Frontend.Station :=
  {| Frontend.name := VStr "London Charing Cross"; Frontend.crs := VStr "CHX";
     Frontend.position := charing_cross |}.

(** An arithmetic to run examples in: the rational numbers and [NaN]
    ([None]).  Sums, differences, products, quotients and squares are exact;
    [Math.sin] and [Math.cos] are the first terms of their series;
    [Math.sqrt] and [Math.atan2] are given where their value is plain
    ([sqrt 0], [sqrt 1], [atan2(0, x)] for a positive [x]) and are [NaN]
    elsewhere.  For a station at the centre itself every step of
    [haversine] has the value here that it has on the doubles, the two
    cosines and their arguments apart, which are numbers in both and are
    multiplied by 0. *)
Definition exactly (f : Q -> Q -> Q) (a b : option Q) : option Q :=
  match a, b with
  | Some x, Some y => Some (f x y)
  | _, _ => None
  end.

Definition rational : Doubles.Arithmetic := {|
  Doubles.double := option Q;
  Doubles.lit := fun z => Some (inject_Z z);
  Doubles.Math_PI := Some (884279719003555 # 281474976710656)%Q;
  Doubles.add := exactly Qplus;
  Doubles.sub := exactly Qminus;
  Doubles.mul := exactly Qmult;
  Doubles.div := fun a b =>
    match b with
    | Some y => if Qeq_bool y 0 then None else exactly Qdiv a b
    | None => None
    end;
  Doubles.pow := fun a b =>
    match b with
    | Some y => if Qeq_bool y 2 then exactly Qmult a a else None
    | None => None
    end;
  Doubles.Math_sin := fun a =>
    match a with
    | Some x => Some (x - x * x * x / 6)%Q
    | None => None
    end;
  Doubles.Math_cos := fun a =>
    match a with
    | Some x => Some (1 - x * x / 2)%Q
    | None => None
    end;
  Doubles.Math_sqrt := fun a =>
    match a with
    | Some x => if Qeq_bool x 0 then Some 0%Q
                else if Qeq_bool x 1 then Some 1%Q else None
    | None => None
    end;
  Doubles.Math_atan2 := fun a b =>
    match a, b with
    | Some y, Some x =>
        if Qeq_bool y 0 && negb (Qle_bool x 0) then Some 0%Q else None
    | _, _ => None
    end;
  Doubles.leb := fun a b =>
    match a, b with
    | Some x, Some y => Qle_bool x y
    | _, _ => false
    end;
  Doubles.ltb := fun a b =>
    match a, b with
    | Some x, Some y => negb (Qle_bool y x)
    | _, _ => false
    end;
  Doubles.is_nan := fun a =>
    match a with
    | Some _ => false
    | None => true
    end
|}.

(** A number of kilometres. *)
Definition km (q : Q) : @Doubles.double rational := Some q.

(** Charing Cross, listed twice under two names. *)
Definition the_cross : @Doubles.LatLon rational :=
  @Doubles.Build_LatLon rational (Some 51.508%Q) (Some (-0.125)%Q).

Definition main_line : @Doubles.Station rational :=
  @Doubles.Build_Station rational (VStr "London Charing Cross") (VStr "CHX")
    the_cross.

Definition underground : @Doubles.Station rational :=
  @Doubles.Build_Station rational (VStr "Charing Cross Underground")
    (VStr "ZCX") the_cross.

(** A fare service whose answer for Paddington has one fare, with the
    number 0 under [price] and no adult price, and whose answer for King's
    Cross has a [null] entry before a priced fare. *)
Definition unpriced : value :=
  VObj [("price", VNum 0); ("ticket", VStr "DAY")].

Definition odd_fares_service (url : string) : reply :=
  if String.eqb url "/api/fares?orig=PAD&dest=MAN"
  then Response 200 (Json (VObj [("fares", VArr [unpriced])]))
  else if String.eqb url "/api/fares?orig=KGX&dest=MAN"
  then Response 200 (Json (VObj [("fares", VArr [VNull; fare 3200 "OFF"])]))
  else Rejected.

(** * Properties *)

(** ** The cache *)

Import Server.

Section CacheFacts.
Implicit Types (c : gmap string entry) (key : string) (v : value).

Lemma getCache_absent key t c :
  c !! key = None -> getCache key t c = (VNull, c).
Proof. intros H. unfold getCache. by rewrite H. Qed.

Lemma getCache_live key t c e :
  c !! key = Some e -> (t <= expires e)%Z ->
  getCache key t c = (value_of e, c).
Proof.
  intros H Ht. unfold getCache. rewrite H.
  destruct (Z.gtb_spec t (expires e)); [lia|done].
Qed.

Lemma getCache_expired key t c e :
  c !! key = Some e -> (expires e < t)%Z ->
  getCache key t c = (VNull, delete key c).
Proof.
  intros H Ht. unfold getCache. rewrite H.
  destruct (Z.gtb_spec t (expires e)); [done|lia].
Qed.

Lemma putCache_lookup key v ttlMs t c :
  putCache key v ttlMs t c !! key = Some (Entry v (t + ttlMs)).
Proof. unfold putCache. apply lookup_insert_eq. Qed.
End CacheFacts.

(** C3, as amended.  After [put(k, v, ttl)] at time [t] with [ttl] not
    negative, an immediate [get(k)] returns [v]; the entry expires at
    [t + ttl], and it is visible as long as the time of the read has not
    passed that instant (the instant itself included): [get] returns [v] and
    leaves the cache as it is; once the time has passed it, [get] returns
    the miss value [null] and removes the entry. *)
Theorem cache_round_trip (key : string) (v : value) (ttlMs t : Z)
    (c : gmap string entry) :
  (0 <= ttlMs)%Z ->
  let c' := putCache key v ttlMs t c in
  getCache key t c' = (v, c')
  /\ (exists e, c' !! key = Some e /\ expires e = (t + ttlMs)%Z)
  /\ (forall t', (t' <= t + ttlMs)%Z -> getCache key t' c' = (v, c'))
  /\ (forall t', (t + ttlMs < t')%Z ->
        getCache key t' c' = (VNull, delete key c)
        /\ delete key c !! key = None).
Proof.
  intros Httl c'. subst c'.
  pose proof (putCache_lookup key v ttlMs t c) as Hput.
  repeat split.
  - rewrite (getCache_live _ _ _ _ Hput); simpl; [done|lia].
  - eauto.
  - intros t' Ht'. by rewrite (getCache_live _ _ _ _ Hput).
  - rewrite (getCache_expired _ _ _ _ Hput) by done.
    unfold putCache. by rewrite delete_insert_eq.
  - apply lookup_delete_eq.
Qed.

Lemma cache_round_trip_witness :
  (0 <= 600000)%Z
  /\ getCache "fetch:u" 5 (putCache "fetch:u" (VStr "v") 600000 5 ∅)
     = (VStr "v", putCache "fetch:u" (VStr "v") 600000 5 ∅).
Proof.
  split; [lia|].
  exact (proj1 (cache_round_trip "fetch:u" (VStr "v") 600000 5 ∅ ltac:(lia))).
Defined.

(** C3 as stated fails when the read happens exactly at the expiry instant:
    the test is [Date.now() > hit.expires], so an entry put at time 0 with a
    ttl of 10 is still returned, and kept, at time 10.  It also fails for a
    negative ttl: the entry has expired by the time it is put, and the
    immediate read is a miss. *)
Lemma cache_visible_at_expiry :
  let c := putCache "k" (VStr "v") 10 0 ∅ in
  (fst (getCache "k" 10 c) = VStr "v"
   /\ fst (getCache "k" 10 c) <> VNull
   /\ snd (getCache "k" 10 c) !! "k" = Some (Entry (VStr "v") 10))
  /\ fst (getCache "k" 0 (putCache "k" (VStr "v") (-1) 0 ∅)) = VNull.
Proof.
  intros c. split.
  - assert (getCache "k" 10 c = (VStr "v", c)) as ->.
    { apply (getCache_live "k" 10 c (Entry (VStr "v") 10)); [|simpl; lia].
      apply putCache_lookup. }
    split; [done|]. split; [done|]. apply putCache_lookup.
  - erewrite getCache_expired; [done|apply putCache_lookup|simpl; lia].
Qed.

(** ** The cached fetch *)

(** Closes a goal [exists more, log s' = log s ++ ev :: more] once the
    state [s'] is spelled out. *)
Ltac log_tail :=
  simpl; rewrite <- ?app_assoc; simpl; eexists; reflexivity.

Section FetchFacts.
Context (w : world).

Lemma getCacheS_spec key s :
  getCacheS key s
  = (fst (getCache key (now s) (cache s)),
     note (CacheGet key) (with_cache (snd (getCache key (now s) (cache s))) s)).
Proof. unfold getCacheS. by destruct (getCache _ _ _). Qed.

Lemma with_cache_same s : with_cache (cache s) s = s.
Proof. by destruct s. Qed.

(** The cached fetch never touches the fallback file. *)
Lemma cachedFetchJson_file url ttlMs s :
  file (snd (cachedFetchJson w url ttlMs s)) = file s.
Proof.
  unfold cachedFetchJson. rewrite getCacheS_spec.
  destruct (truthy _); [done|].
  destruct (upstream w url) as [|st b]; [done|].
  destruct (negb (ok st)), b; done.
Qed.

(** The cached fetch first reads the cache under ["fetch:" + url]. *)
Lemma cachedFetchJson_log url ttlMs s :
  exists more,
    log (snd (cachedFetchJson w url ttlMs s))
    = log s ++ CacheGet ("fetch:" +:+ url) :: more.
Proof.
  unfold cachedFetchJson. rewrite getCacheS_spec.
  destruct (truthy _); [by exists []|].
  destruct (upstream w url) as [|st b]; [log_tail|].
  destruct (negb (ok st)), b; log_tail.
Qed.

(** When it throws, the error carries the upstream status exactly when the
    upstream answered, not ok, with a body that could be read. *)
Lemma cachedFetchJson_throws url ttlMs s e :
  fst (cachedFetchJson w url ttlMs s) = Throw e ->
  status e = match upstream w url with
             | Rejected => None
             | Response st b =>
                 if ok st then None
                 else match b with Unreadable => None | _ => Some st end
             end.
Proof.
  unfold cachedFetchJson. rewrite getCacheS_spec.
  destruct (truthy _); [done|].
  destruct (upstream w url) as [|st b]; [by intros [= <-]|].
  destruct (ok st), b; simpl; by intros [= <-].
Qed.

Lemma cachedFetchJson_truthy_hit url ttlMs s e :
  cache s !! ("fetch:" +:+ url) = Some e -> (now s <= expires e)%Z ->
  truthy (value_of e) = true ->
  cachedFetchJson w url ttlMs s
  = (Ok (value_of e), note (CacheGet ("fetch:" +:+ url)) s).
Proof.
  intros He Hnow Htruthy. unfold cachedFetchJson.
  rewrite getCacheS_spec, (getCache_live _ _ _ _ He Hnow). simpl.
  by rewrite Htruthy, with_cache_same.
Qed.

Lemma cachedFetchJson_falsy_hit url ttlMs s e :
  cache s !! ("fetch:" +:+ url) = Some e -> (now s <= expires e)%Z ->
  truthy (value_of e) = false ->
  exists more,
    log (snd (cachedFetchJson w url ttlMs s))
    = log s ++ CacheGet ("fetch:" +:+ url) :: Fetch url :: more.
Proof.
  intros He Hnow Hfalsy. unfold cachedFetchJson.
  rewrite getCacheS_spec, (getCache_live _ _ _ _ He Hnow). simpl.
  rewrite Hfalsy, with_cache_same.
  destruct (upstream w url) as [|st b]; [log_tail|].
  destruct (negb (ok st)), b; log_tail.
Qed.
End FetchFacts.

(** C4, as amended.  When the key of a URL is present and unexpired,
    [getCache] returns the stored value, and [cachedFetchJson] returns that
    value without fetching when it is truthy, but fetches upstream again
    when it is falsy ([null], [false], [0], [""]); a miss is reported as
    [null], the value a stored [null] reads back as. *)
Theorem cached_value_read_back (w : world) (url : string) (ttlMs : Z)
    (s : state) (e : entry) :
  cache s !! ("fetch:" +:+ url) = Some e ->
  (now s <= expires e)%Z ->
  getCache ("fetch:" +:+ url) (now s) (cache s) = (value_of e, cache s)
  /\ (truthy (value_of e) = true ->
      cachedFetchJson w url ttlMs s
      = (Ok (value_of e), note (CacheGet ("fetch:" +:+ url)) s))
  /\ (truthy (value_of e) = false ->
      exists more,
        log (snd (cachedFetchJson w url ttlMs s))
        = log s ++ CacheGet ("fetch:" +:+ url) :: Fetch url :: more)
  /\ (forall c t, c !! ("fetch:" +:+ url) = None ->
        fst (getCache ("fetch:" +:+ url) t c) = VNull).
Proof.
  intros He Hnow. split; [by apply getCache_live|]. split; [|split].
  - by apply cachedFetchJson_truthy_hit.
  - by apply cachedFetchJson_falsy_hit.
  - intros c t Hc. by rewrite getCache_absent.
Qed.

Lemma cached_value_read_back_witness :
  cache (holding (VStr "x")) !! ("fetch:" +:+ "u")
  = Some (Entry (VStr "x") 600000)
  /\ (now (holding (VStr "x")) <= expires (Entry (VStr "x") 600000))%Z
  /\ getCache ("fetch:" +:+ "u") (now (holding (VStr "x")))
       (cache (holding (VStr "x")))
     = (value_of (Entry (VStr "x") 600000), cache (holding (VStr "x"))).
Proof.
  assert (cache (holding (VStr "x")) !! ("fetch:" +:+ "u")
          = Some (Entry (VStr "x") 600000)) as Hkey by (vm_compute; reflexivity).
  assert (now (holding (VStr "x")) <= expires (Entry (VStr "x") 600000))%Z
    as Hnow by (simpl; lia).
  split; [exact Hkey|]. split; [exact Hnow|].
  exact (proj1 (cached_value_read_back answers_null "u" 600000
                  (holding (VStr "x")) _ Hkey Hnow)).
Defined.

(** C4 as stated fails for a stored [null]: present and unexpired, it reads
    back from [getCache] as the very value a miss gives, and
    [cachedFetchJson] goes upstream again. *)
Lemma stored_null_is_fetched_again :
  cache (holding VNull) !! "fetch:u" = Some (Entry VNull 600000)
  /\ (now (holding VNull) <= 600000)%Z
  /\ fst (getCache "fetch:u" 1 (cache (holding VNull)))
     = fst (getCache "fetch:u" 1 ∅)
  /\ exists more,
       log (snd (cachedFetchJson answers_null "u" 600000 (holding VNull)))
       = CacheGet "fetch:u" :: Fetch "u" :: more.
Proof.
  assert (cache (holding VNull) !! ("fetch:" +:+ "u")
          = Some (Entry VNull 600000)) as Hkey by apply putCache_lookup.
  split; [exact Hkey|]. split; [simpl; lia|]. split.
  - rewrite (getCache_live _ _ _ _ Hkey) by (simpl; lia).
    by rewrite getCache_absent.
  - apply (cachedFetchJson_falsy_hit answers_null "u" 600000 _ _ Hkey);
      [simpl; lia|done].
Qed.

(** ** The endpoints *)

Section EndpointFacts.
Context (w : world) (TTL : ttl).

Lemma trimStart_all_ws_bounded n : forall s,
  String.length s <= n -> Text.all_ws s = true -> Text.trimStart s = "".
Proof.
  induction n as [|n IH]; intros [|a r] Hlen Hws; try done; simpl in Hlen.
  - lia.
  - cbn [Text.all_ws Text.trimStart] in *.
    destruct (Text.ws1 a); [apply IH; [lia|done]|].
    destruct r as [|b r2]; [done|]. simpl in Hlen.
    destruct (Text.ws2 a b); [apply IH; [lia|done]|].
    destruct r2 as [|c r3]; [done|]. simpl in Hlen.
    apply andb_prop in Hws as [-> Hws]. apply IH; [lia|done].
Qed.

(** A string of white space trims to the empty string. *)
Lemma trim_all_ws s : Text.all_ws s = true -> Text.trim s = "".
Proof.
  intros Hws. unfold Text.trim.
  by rewrite (trimStart_all_ws_bounded (String.length s) s).
Qed.

Lemma term_of_blank (q : gmap string string) :
  q !! "term" = None
  \/ (exists t, q !! "term" = Some t /\ Text.all_ws t = true) ->
  term_of q = "".
Proof.
  unfold term_of, qvalue, or_else.
  intros [->|(t & -> & Hws)]; [done|]. simpl.
  destruct (String.eqb t ""); simpl; [done|]. by apply trim_all_ws.
Qed.

Lemma search_blank endpoint failure (q : gmap string string) s :
  term_of q = "" ->
  search w TTL endpoint failure q s = (Res 200 (VArr []), s).
Proof. intros Hterm. unfold search. by rewrite Hterm. Qed.
End EndpointFacts.

(** C6.  When the cached fetch of the stations list fails, GET /api/stations
    reads the fallback file; if the file is there and parses, the answer is
    200 with the parsed content; otherwise the answer is the error body
    with the status of the original failure, which is the upstream status
    when the upstream answered with one, and 502 when the failure has
    none. *)
Theorem stations_fallback
    (JSON_parse : string -> option value) (JSON_stringify : value -> string)
    (w : world) (TTL : ttl) (s : state) (e : error) :
  fst (cachedFetchJson w stationsRemote (STATIONS_MS TTL) s) = Throw e ->
  let answer := api_stations JSON_parse JSON_stringify w TTL s in
  (exists before, log (snd answer) = before ++ [ReadFile])
  /\ (forall raw v, file s = Some raw -> JSON_parse raw = Some v ->
        fst answer = Res 200 v)
  /\ (file s ≫= JSON_parse = None ->
        fst answer
        = Res (default 502%positive (status e))
              (VObj [("error", VStr "Failed to retrieve stations")]))
  /\ status e = match upstream w stationsRemote with
                | Rejected => None
                | Response st b =>
                    if ok st then None
                    else match b with Unreadable => None | _ => Some st end
                end.
Proof.
  intros Hthrow answer. subst answer. unfold api_stations.
  pose proof (cachedFetchJson_file w stationsRemote (STATIONS_MS TTL) s) as Hfile.
  pose proof (cachedFetchJson_throws w _ _ _ _ Hthrow) as Hstatus.
  destruct (cachedFetchJson w stationsRemote (STATIONS_MS TTL) s) as [r s'].
  simpl in Hthrow, Hfile. subst r. simpl. rewrite Hfile.
  split; [|split; [|split]].
  - destruct (file s ≫= JSON_parse); simpl; eauto.
  - intros raw v -> Hv. simpl. by rewrite Hv.
  - intros ->. unfold res_error, status_or_502. by destruct (status e).
  - done.
Qed.

(** C7.  When [orig] or [dest] is missing from the query, GET /api/fares
    answers 400 with [{error: "orig and dest are required"}] and leaves the
    process state as it was: nothing is fetched, and the cache is not
    read. *)
Theorem fares_requires_orig_and_dest (w : world) (TTL : ttl)
    (q : gmap string string) (s : state) :
  q !! "orig" = None \/ q !! "dest" = None ->
  api_fares w TTL q s
  = (Res 400 (VObj [("error", VStr "orig and dest are required")]), s).
Proof.
  unfold api_fares, qvalue. intros [->| ->]; simpl; [done|].
  by rewrite orb_true_r.
Qed.

(** C8.  When [term] is missing, empty or made of white space only,
    GET /api/loc and GET /api/railcards answer 200 with the empty array and
    leave the process state as it was: nothing is fetched, and the cache is
    neither read nor written. *)
Theorem search_blank_term (w : world) (TTL : ttl)
    (q : gmap string string) (s : state) :
  q !! "term" = None
  \/ (exists t, q !! "term" = Some t /\ Text.all_ws t = true) ->
  api_loc w TTL q s = (Res 200 (VArr []), s)
  /\ api_railcards w TTL q s = (Res 200 (VArr []), s).
Proof.
  intros Hterm. apply term_of_blank in Hterm.
  split; by apply search_blank.
Qed.

Lemma stations_fallback_witness :
  fst (cachedFetchJson unreachable stationsRemote (STATIONS_MS day) with_fallback)
  = Throw (Error None)
  /\ fst (api_stations parse_empty_array print_nothing unreachable day
            with_fallback)
     = Res 200 (VArr []).
Proof.
  assert (fst (cachedFetchJson unreachable stationsRemote (STATIONS_MS day)
                 with_fallback) = Throw (Error None)) as Hthrow
    by (vm_compute; reflexivity).
  split; [exact Hthrow|].
  destruct (stations_fallback parse_empty_array print_nothing unreachable day
              with_fallback _ Hthrow) as (_ & Hparsed & _).
  apply (Hparsed "[]"); reflexivity.
Defined.

Lemma fares_requires_orig_and_dest_witness :
  (({[ "dest" := "MAN" ]} : gmap string string) !! "orig" = None
   \/ ({[ "dest" := "MAN" ]} : gmap string string) !! "dest" = None)
  /\ api_fares unreachable day {[ "dest" := "MAN" ]} with_fallback
     = (Res 400 (VObj [("error", VStr "orig and dest are required")]),
        with_fallback).
Proof.
  assert (({[ "dest" := "MAN" ]} : gmap string string) !! "orig" = None
          \/ ({[ "dest" := "MAN" ]} : gmap string string) !! "dest" = None)
    as Hmissing by (left; vm_compute; reflexivity).
  split; [exact Hmissing|].
  exact (fares_requires_orig_and_dest unreachable day _ with_fallback Hmissing).
Defined.

Lemma search_blank_term_witness :
  (({[ "term" := blank ]} : gmap string string) !! "term" = None
   \/ exists t, ({[ "term" := blank ]} : gmap string string) !! "term" = Some t
                /\ Text.all_ws t = true)
  /\ api_loc unreachable day {[ "term" := blank ]} with_fallback
     = (Res 200 (VArr []), with_fallback).
Proof.
  assert (({[ "term" := blank ]} : gmap string string) !! "term" = None
          \/ exists t,
               ({[ "term" := blank ]} : gmap string string) !! "term" = Some t
               /\ Text.all_ws t = true) as Hblank.
  { right. exists blank. split; vm_compute; reflexivity. }
  split; [exact Hblank|].
  exact (proj1 (search_blank_term unreachable day _ with_fallback Hblank)).
Defined.

(** C10.  With [orig] and [dest] present and not empty, the query sent
    upstream has [orig] and [dest], then each of [date], [time] and [rlc]
    that is present and not empty, with the value it was given, then [rtn]
    with the value ["1"] whenever the [rtn] parameter is present and not
    empty, whatever its text (["0"] and ["false"] included), and no [rtn]
    when it is absent or empty; that query, form-encoded after the fare
    service's address, is the URL the handler fetches through the cache. *)
Theorem fares_upstream_query (w : world) (TTL : ttl)
    (q : gmap string string) (s : state) (o d : string) :
  q !! "orig" = Some o -> o <> "" ->
  q !! "dest" = Some d -> d <> "" ->
  let sent :=
    [("orig", o); ("dest", d)]
    ++ forwarded "date" (q !! "date")
    ++ forwarded "time" (q !! "time")
    ++ forwarded "rlc" (q !! "rlc")
    ++ (if nonempty (q !! "rtn") then [("rtn", "1")] else []) in
  Server.fares_url q
  = "https://gw.brfares.com/legacy_querysimple?" +:+ Text.toString sent
  /\ snd (api_fares w TTL q s)
     = snd (cachedFetchJson w (Server.fares_url q) (FARES_MS TTL) s)
  /\ exists more,
       log (snd (api_fares w TTL q s))
       = log s ++ CacheGet ("fetch:" +:+ Server.fares_url q) :: more.
Proof.
  intros Ho Ho' Hd Hd' sent. subst sent.
  assert (snd (api_fares w TTL q s)
          = snd (cachedFetchJson w (Server.fares_url q) (FARES_MS TTL) s))
    as Hstate.
  { unfold api_fares, qvalue. rewrite Ho, Hd. simpl.
    rewrite (proj2 (String.eqb_neq o "") Ho'), (proj2 (String.eqb_neq d "") Hd').
    simpl. destruct (cachedFetchJson _ _ _ _) as [[json|e] s']; done. }
  split; [|split; [exact Hstate|]].
  - unfold Server.fares_url, fares_params, Server.set_if, qvalue, forwarded,
      nonempty.
    rewrite Ho, Hd.
    destruct (q !! "date") as [[|? ?]|], (q !! "time") as [[|? ?]|],
      (q !! "rlc") as [[|? ?]|], (q !! "rtn") as [[|? ?]|]; reflexivity.
  - rewrite Hstate. apply cachedFetchJson_log.
Qed.

Lemma fares_upstream_query_witness :
  Server.fares_url return_flag_zero
  = "https://gw.brfares.com/legacy_querysimple?orig=PAD&dest=MAN&rtn=1".
Proof.
  assert (return_flag_zero !! "orig" = Some "PAD") as Ho
    by (vm_compute; reflexivity).
  assert (return_flag_zero !! "dest" = Some "MAN") as Hd
    by (vm_compute; reflexivity).
  assert ("PAD" <> "") as Ho' by discriminate.
  assert ("MAN" <> "") as Hd' by discriminate.
  exact (proj1 (fares_upstream_query unreachable day return_flag_zero
                  with_fallback "PAD" "MAN" Ho Ho' Hd Hd')).
Defined.

(** ** Sorting *)

Section SortFacts.
Context {A : Type} (le : A -> A -> bool).

Let R : relation A := fun a b => le a b = true.

Lemma insert_sorted_perm x l : JS.insert_sorted le x l ≡ₚ x :: l.
Proof.
  induction l as [|y l IH]; simpl; [done|].
  destruct (le x y); [done|].
  rewrite IH. apply Permutation_swap.
Qed.

Lemma sort_perm l : JS.sort le l ≡ₚ l.
Proof.
  induction l as [|x l IH]; simpl; [done|].
  unfold JS.sort in *. simpl. by rewrite insert_sorted_perm, IH.
Qed.

Lemma sort_length l : length (JS.sort le l) = length l.
Proof. by rewrite sort_perm. Qed.

Context `{!Total R}.

Lemma insert_sorted_Sorted x l :
  Sorted R l -> Sorted R (JS.insert_sorted le x l).
Proof.
  induction 1 as [|y l Hl IH Hy]; simpl.
  - repeat constructor.
  - destruct (le x y) eqn:Hxy.
    + repeat constructor; done.
    + constructor; [done|].
      assert (R y x) as Hyx.
      { destruct (total R x y) as [H|H]; [|done]. unfold R in H. congruence. }
      destruct Hy as [|z l Hz]; simpl in *.
      * by constructor.
      * destruct (le x z); by constructor.
Qed.

Lemma sort_Sorted l : Sorted R (JS.sort le l).
Proof.
  induction l as [|x l IH]; [constructor|].
  unfold JS.sort in *. simpl. by apply insert_sorted_Sorted.
Qed.

Context `{!Transitive R}.

Lemma sort_StronglySorted l : StronglySorted R (JS.sort le l).
Proof. apply Sorted_StronglySorted; [done|]. apply sort_Sorted. Qed.

(** The first element of the sorted array is a least element. *)
Lemma sort_head_least l x :
  head (JS.sort le l) = Some x -> x ∈ l /\ forall y, y ∈ l -> R x y.
Proof.
  intros Hx. pose proof (sort_StronglySorted l) as Hs.
  pose proof (sort_perm l) as Hp.
  destruct (JS.sort le l) as [|x' l'] eqn:E; simplify_eq/=.
  split.
  - rewrite <- Hp. left.
  - intros y Hy. rewrite <- Hp in Hy.
    apply StronglySorted_inv in Hs as [_ Hall].
    apply elem_of_cons in Hy as [->|Hy].
    + destruct (total R x x); done.
    + rewrite Forall_forall in Hall. by apply Hall.
Qed.
End SortFacts.

(** The two orders the program sorts by. *)
#[global] Instance by_distance_total :
  Total (fun a b => Frontend.by_distance a b = true).
Proof.
  intros a b. unfold Frontend.by_distance.
  rewrite !bool_decide_eq_true.
  destruct (Rle_dec (Frontend.distance a) (Frontend.distance b)); [left|right]; lra.
Qed.

#[global] Instance by_distance_trans :
  Transitive (fun a b => Frontend.by_distance a b = true).
Proof.
  intros a b c. unfold Frontend.by_distance.
  rewrite !bool_decide_eq_true. lra.
Qed.


(** ** Nearby stations *)

Import Frontend.

Section Nearest.


Lemma toRadians_0 : toRadians 0 = 0%R.
Proof. unfold toRadians. lra. Qed.

Lemma atan2_0_1 : atan2 0 1 = 0%R.
Proof.
  unfold atan2. destruct (decide (0 < 1)%R) as [_|H]; [|lra].
  replace (0 / 1)%R with 0%R by lra. apply atan_0.
Qed.

(** A point is at distance 0 from itself. *)
Lemma haversine_same a : haversine a a = 0%R.
Proof.
  unfold haversine.
  replace (lat a - lat a)%R with 0%R by lra.
  replace (lon a - lon a)%R with 0%R by lra.
  rewrite toRadians_0.
  replace (0 / 2)%R with 0%R by lra.
  rewrite sin_0.
  replace (0 ^ 2 + cos (toRadians (lat a)) * cos (toRadians (lat a)) * 0 ^ 2)%R
    with 0%R by (simpl; ring).
  rewrite sqrt_0, Rminus_0_r, sqrt_1, atan2_0_1. lra.
Qed.

Lemma slice0_nonneg {A} (l : list A) (n : Z) :
  (0 <= n)%Z -> slice0 l n = take (Z.to_nat n) l.
Proof. intros Hn. unfold slice0. by rewrite (proj2 (Z.ltb_ge n 0) Hn). Qed.

Lemma slice0_neg_length {A} (l : list A) (n : Z) :
  (n < 0)%Z ->
  length (slice0 l n) = Z.to_nat (Z.max (Z.of_nat (length l) + n) 0).
Proof.
  intros Hn. unfold slice0. rewrite (proj2 (Z.ltb_lt n 0) Hn).
  rewrite length_take. lia.
Qed.
End Nearest.

(** *** On the doubles *)

(** Insertion with a comparator that is an order on part of the type only:
    a list of elements of that part comes out in order. *)
Section SortOn.
Context {A : Type} (le : A -> A -> bool) (P : A -> Prop) (R : relation A).
Hypothesis le_R : forall a b, P a -> P b -> le a b = true -> R a b.
Hypothesis not_le_R : forall a b, P a -> P b -> le a b = false -> R b a.
Hypothesis R_trans : forall a b c, P a -> P b -> P c -> R a b -> R b c -> R a c.

Lemma insert_sorted_on x l :
  P x -> Forall P l -> StronglySorted R l ->
  StronglySorted R (JS.insert_sorted le x l).
Proof.
  intros Hx HP Hs. induction Hs as [|y l Hl IH Hy]; simpl.
  - repeat constructor.
  - apply Forall_cons in HP as [Py Pl].
    destruct (le x y) eqn:Hxy.
    + constructor; [by constructor|].
      constructor; [by apply le_R|].
      rewrite Forall_forall in Hy, Pl |- *. intros z Hz.
      apply (R_trans x y z); auto.
    + constructor; [by apply IH|].
      rewrite Forall_forall in Hy |- *. intros z Hz.
      rewrite insert_sorted_perm in Hz.
      apply elem_of_cons in Hz as [->|Hz]; [by apply not_le_R|by apply Hy].
Qed.

Lemma sort_on l : Forall P l -> StronglySorted R (JS.sort le l).
Proof.
  induction 1 as [|x l Hx Hl IH]; [constructor|].
  unfold JS.sort in *. simpl. apply insert_sorted_on; [done| |done].
  fold (JS.sort le l). by rewrite sort_perm.
Qed.
End SortOn.

Section DoubleDistances.
Context {A : Doubles.Arithmetic} {L : Doubles.Laws A}.

(** Among entries whose distance is a number the comparator of the sort is
    the order of the distances. *)
Lemma sort_by_distance_on (l : list Doubles.Nearby) :
  Forall (fun n => Doubles.is_nan (Doubles.distance n) = false) l ->
  StronglySorted
    (fun a b => Doubles.leb (Doubles.distance a) (Doubles.distance b) = true)
    (JS.sort Doubles.by_distance l).
Proof.
  apply sort_on.
  - intros a b Ha Hb. unfold Doubles.by_distance.
    rewrite Doubles.sub_sign by done. by rewrite negb_involutive.
  - intros a b Ha Hb. unfold Doubles.by_distance.
    rewrite Doubles.sub_sign by done. rewrite negb_involutive. intros Hab.
    destruct (Doubles.leb_total _ _ Ha Hb); congruence.
  - intros a b c _ _ _. apply Doubles.leb_trans.
Qed.

Lemma within_radius_number (radiusKm : Doubles.double) (l : list Doubles.Nearby) :
  Forall (fun n => Doubles.is_nan (Doubles.distance n) = false)
    (filter (fun n => Doubles.leb (Doubles.distance n) radiusKm = true) l).
Proof.
  apply Forall_forall. intros n Hn. apply list_elem_of_filter in Hn as [Hn _].
  by apply Doubles.leb_numbers in Hn as [? _].
Qed.
End DoubleDistances.

(** The comparison laws hold in the arithmetic of the examples. *)
Lemma rational_laws : Doubles.Laws rational.
Proof.
  split.
  - intros [x|] [y|]; simpl; done.
  - intros [x|] [y|]; simpl; try done. intros _ _.
    rewrite !Qle_bool_iff.
    destruct (Qlt_le_dec y x); [right|left]; Lqa.lra.
  - intros [x|] [y|] [z|]; simpl; try done.
    rewrite !Qle_bool_iff. intros. Lqa.lra.
  - intros [x|] [y|]; simpl; try done. intros _ _. f_equal.
    apply eq_true_iff_eq. rewrite !Qle_bool_iff.
    unfold inject_Z. split; intros; Lqa.lra.
Qed.

(** C2, as amended.  Over the doubles, for a limit that is not negative,
    [findNearbyStations] returns the first [limit] entries of the list of
    exactly those stations whose distance from the centre, as [haversine]
    computes it, is a number that is at most [radiusKm], in ascending order
    of that distance: together with the entries [beyond] that the truncation
    leaves out, the result is a rearrangement of all the stations for which
    [distance <= radiusKm] holds, the whole is in ascending order (so no
    entry left out is nearer than a returned one), the result has [limit]
    entries unless fewer qualify, and each returned entry is a station of
    the set, carries the distance [haversine] computes for it, which is not
    [NaN], and is not farther than [radiusKm].  A station whose computed
    distance is [NaN] fails the comparison and is never returned. *)
Theorem findNearbyStations_nonnegative_limit
    (A : Doubles.Arithmetic) (L : Doubles.Laws A)
    (stations : list Doubles.Station) (center : Doubles.LatLon)
    (radiusKm : Doubles.double) (limit : Z) :
  (0 <= limit)%Z ->
  let found := Doubles.findNearbyStations stations center radiusKm limit in
  exists beyond : list Doubles.Nearby,
    found ++ beyond ≡ₚ
      filter (fun n => Doubles.leb (Doubles.distance n) radiusKm = true)
        (map (fun s => Doubles.Build_Nearby s
                        (Doubles.haversine center (Doubles.position s)))
             stations)
    /\ StronglySorted
         (fun a b =>
            Doubles.leb (Doubles.distance a) (Doubles.distance b) = true)
         (found ++ beyond)
    /\ length found = Nat.min (Z.to_nat limit) (length (found ++ beyond))
    /\ forall n, n ∈ found ->
         Doubles.station n ∈ stations
         /\ Doubles.distance n
            = Doubles.haversine center (Doubles.position (Doubles.station n))
         /\ Doubles.is_nan (Doubles.distance n) = false
         /\ Doubles.leb (Doubles.distance n) radiusKm = true.
Proof.
  intros Hlimit found. subst found. unfold Doubles.findNearbyStations.
  rewrite slice0_nonneg by done.
  set (within := filter _ _).
  set (sorted := JS.sort Doubles.by_distance within).
  exists (drop (Z.to_nat limit) sorted).
  rewrite take_drop. split; [apply sort_perm|].
  split; [apply sort_by_distance_on, within_radius_number|].
  split; [by rewrite length_take|].
  intros n Hn. apply elem_of_take in Hn as (i & Hi & _).
  apply list_elem_of_lookup_2 in Hi. unfold sorted in Hi.
  rewrite sort_perm in Hi. apply list_elem_of_filter in Hi as [Hle Hi].
  apply list_elem_of_In, in_map_iff in Hi as (s & <- & Hs). simpl in *.
  split; [by apply list_elem_of_In|]. split; [done|].
  split; [|done]. by apply Doubles.leb_numbers in Hle as [? _].
Qed.

Lemma findNearbyStations_nonnegative_limit_witness :
  (0 <= 1)%Z
  /\ exists beyond,
       Doubles.findNearbyStations [main_line; underground] the_cross (km 1) 1
       ++ beyond
       ≡ₚ filter (fun n => Doubles.leb (Doubles.distance n) (km 1) = true)
            (map (fun s => Doubles.Build_Nearby s
                            (Doubles.haversine the_cross (Doubles.position s)))
                 [main_line; underground]).
Proof.
  split; [lia|].
  destruct (findNearbyStations_nonnegative_limit rational rational_laws
              [main_line; underground] the_cross (km 1) 1 ltac:(lia))
    as (beyond & Hperm & _).
  exists beyond. exact Hperm.
Defined.

(** C2 as stated fails for a negative limit.  [slice(0, -1)] drops the last
    entry only: of two stations within the radius the first is returned with
    [limit = -1], where [limit = 0] returns none; one entry is more than
    [limit]. *)
Lemma findNearbyStations_negative_limit :
  Doubles.findNearbyStations [main_line; underground] the_cross (km 1) (-1)
  = [Doubles.Build_Nearby main_line (km 0)]
  /\ Doubles.findNearbyStations [main_line; underground] the_cross (km 1) 0
     = []
  /\ ~ (Z.of_nat
          (length (Doubles.findNearbyStations [main_line; underground]
                     the_cross (km 1) (-1)))
        <= -1)%Z.
Proof.
  assert (Doubles.findNearbyStations [main_line; underground] the_cross
            (km 1) (-1)
          = [Doubles.Build_Nearby main_line (km 0)]) as Hone
    by (vm_compute; reflexivity).
  split; [exact Hone|]. split; [vm_compute; reflexivity|].
  rewrite Hone. simpl. lia.
Qed.

(** X27.  What a negative limit does.  [slice(0, limit)] then counts from
    the end: the result is the list of the stations whose computed distance
    is at most [radiusKm], in ascending order, without its last [-limit]
    entries (nothing, when there are no more than that).  Whatever the
    limit, negative or not, every entry returned is a station of the set,
    with the distance computed for it, which is a number and not above
    [radiusKm]. *)
Theorem findNearbyStations_counts_from_the_end
    (A : Doubles.Arithmetic) (L : Doubles.Laws A)
    (stations : list Doubles.Station) (center : Doubles.LatLon)
    (radiusKm : Doubles.double) (limit : Z) :
  let found := Doubles.findNearbyStations stations center radiusKm limit in
  (forall n, n ∈ found ->
     Doubles.station n ∈ stations
     /\ Doubles.distance n
        = Doubles.haversine center (Doubles.position (Doubles.station n))
     /\ Doubles.is_nan (Doubles.distance n) = false
     /\ Doubles.leb (Doubles.distance n) radiusKm = true)
  /\ ((limit < 0)%Z ->
      exists beyond : list Doubles.Nearby,
        found ++ beyond ≡ₚ
          filter (fun n => Doubles.leb (Doubles.distance n) radiusKm = true)
            (map (fun s => Doubles.Build_Nearby s
                             (Doubles.haversine center (Doubles.position s)))
                 stations)
        /\ StronglySorted
             (fun a b =>
                Doubles.leb (Doubles.distance a) (Doubles.distance b) = true)
             (found ++ beyond)
        /\ length beyond
           = Nat.min (Z.to_nat (- limit)) (length (found ++ beyond))).
Proof.
  intros found. subst found. unfold Doubles.findNearbyStations.
  set (within := filter _ _).
  set (sorted := JS.sort Doubles.by_distance within).
  split.
  - intros n Hn.
    assert (n ∈ sorted) as Hi.
    { revert Hn. unfold slice0. destruct (limit <? 0)%Z;
        intros (i & Hi & _)%elem_of_take; by eapply list_elem_of_lookup_2. }
    unfold sorted in Hi. rewrite sort_perm in Hi.
    apply list_elem_of_filter in Hi as [Hle Hi].
    apply list_elem_of_In, in_map_iff in Hi as (s & <- & Hs). simpl in *.
    split; [by apply list_elem_of_In|]. split; [done|].
    split; [|done]. by apply Doubles.leb_numbers in Hle as [? _].
  - intros Hlimit. unfold slice0. rewrite (proj2 (Z.ltb_lt limit 0) Hlimit).
    set (kept := Z.to_nat (Z.max (Z.of_nat (length sorted) + limit) 0)).
    exists (drop kept sorted). rewrite take_drop.
    split; [apply sort_perm|].
    split; [apply sort_by_distance_on, within_radius_number|].
    rewrite length_drop. unfold kept. lia.
Qed.

Lemma findNearbyStations_counts_from_the_end_witness :
  (-1 < 0)%Z
  /\ exists beyond,
       length beyond
       = Nat.min (Z.to_nat (- -1))
           (length (Doubles.findNearbyStations [main_line; underground]
                      the_cross (km 1) (-1) ++ beyond)).
Proof.
  assert (-1 < 0)%Z as Hlimit by lia.
  split; [exact Hlimit|].
  destruct (proj2 (findNearbyStations_counts_from_the_end rational
                     rational_laws [main_line; underground] the_cross (km 1)
                     (-1)) Hlimit)
    as (beyond & _ & _ & Hlen).
  exists beyond. exact Hlen.
Defined.

(** ** Loading the stations *)

Section LoadFacts.
Lemma filterM_app {A} (f : A -> result bool) l1 l2 :
  filterM f (l1 ++ l2)
  = (r1 ← filterM f l1; r2 ← filterM f l2; Ok (r1 ++ r2)).
Proof.
  induction l1 as [|x l1 IH]; simpl.
  - by destruct (filterM f l2).
  - destruct (f x) as [keep|e]; simpl; [|done]. rewrite IH.
    destruct (filterM f l1) as [r1|e]; simpl; [|done].
    destruct (filterM f l2) as [r2|e]; simpl; [|done].
    by destruct keep.
Qed.

Lemma has_code_and_coordinates_false s :
  nullish s = false ->
  truthy (prop s "crs") = false \/ truthy (prop s "lat") = false
  \/ truthy (prop s "long") = false ->
  has_code_and_coordinates s = Ok false.
Proof.
  intros Hs H. unfold has_code_and_coordinates, get, and_also.
  rewrite Hs. simpl. f_equal.
  destruct (truthy (prop s "crs")) eqn:Hcrs, (truthy (prop s "lat")) eqn:Hlat,
    (truthy (prop s "long")) eqn:Hlong;
    rewrite ?Hcrs, ?Hlat, ?Hlong; try done.
  destruct H as [H|[H|H]]; done.
Qed.
End LoadFacts.

(** C9, as amended.  An entry of the raw list other than [null] and
    [undefined] whose [crs], [lat] or [long] is absent or falsy is dropped
    by [loadStations]: the filter answers no for it, the stations made from
    the list are those made from the list without the entry, and loading
    the one list and loading the other come to the same, result and state.
    This covers an entry whose latitude, or whose longitude, is the number
    0, and an entry that has its longitude under [lon] and no [long]. *)
Theorem loadStations_drops_falsy_fields
    (pre post : list value) (s : value)
    (fetch : string -> reply) (st : Frontend.state) :
  nullish s = false ->
  truthy (prop s "crs") = false \/ truthy (prop s "lat") = false
  \/ truthy (prop s "long") = false ->
  has_code_and_coordinates s = Ok false
  /\ stations_of (VArr (pre ++ s :: post)) = stations_of (VArr (pre ++ post))
  /\ (cache_stations st = None ->
      fetch "/api/stations" = Response 200 (Json (VArr (pre ++ s :: post))) ->
      loadStations fetch st
      = loadStations (fun _ => Response 200 (Json (VArr (pre ++ post)))) st).
Proof.
  intros Hs Hfalsy.
  assert (stations_of (VArr (pre ++ s :: post))
          = stations_of (VArr (pre ++ post))) as Heq.
  { unfold stations_of. rewrite !filterM_app. simpl.
    rewrite (has_code_and_coordinates_false s Hs Hfalsy). simpl.
    destruct (filterM _ pre) as [r1|e]; simpl; [|done].
    by destruct (filterM _ post). }
  split; [by apply has_code_and_coordinates_false|].
  split; [exact Heq|].
  intros Hcache Hfetch. unfold loadStations. rewrite Hcache, Hfetch.
  change (json_of (Response 200 (Json ?x))) with (Ok x).
  unfold mbind, result_bind. by rewrite Heq.
Qed.

Lemma loadStations_drops_falsy_fields_witness :
  nullish on_the_meridian = false
  /\ (truthy (prop on_the_meridian "crs") = false
      \/ truthy (prop on_the_meridian "lat") = false
      \/ truthy (prop on_the_meridian "long") = false)
  /\ stations_of (VArr ([raw_station "PAD" 51.5154 (-0.1755)]
                        ++ on_the_meridian :: [lon_only]))
     = stations_of (VArr ([raw_station "PAD" 51.5154 (-0.1755)] ++ [lon_only])).
Proof.
  assert (nullish on_the_meridian = false) as Hs by reflexivity.
  assert (truthy (prop on_the_meridian "crs") = false
          \/ truthy (prop on_the_meridian "lat") = false
          \/ truthy (prop on_the_meridian "long") = false) as Hfalsy
    by (right; right; vm_compute; reflexivity).
  split; [exact Hs|]. split; [exact Hfalsy|].
  exact (proj1 (proj2 (loadStations_drops_falsy_fields
                         [raw_station "PAD" 51.5154 (-0.1755)] [lon_only]
                         on_the_meridian (fun _ => Rejected)
                         (Frontend.State [] None ∅) Hs Hfalsy))).
Defined.

(** C9 as stated fails at an entry that is [null].  It has no [crs], [lat]
    or [long], yet it is not dropped: the filter reads [s.crs] on it and
    throws, [loadStations] is rejected with the [TypeError] and nothing is
    loaded, where the list without the entry loads Paddington. *)
Lemma loadStations_null_entry :
  truthy (prop VNull "crs") = false
  /\ stations_of (VArr [raw_station "PAD" 51.5154 (-0.1755); VNull])
     = Throw TypeError
  /\ stations_of (VArr [raw_station "PAD" 51.5154 (-0.1755)])
     = Ok [VObj [("name", VStr "PAD"); ("crs", VStr "PAD");
                 ("lat", VNum 51.5154); ("lon", VNum (-0.1755))]]
  /\ loadStations
       (fun _ => Response 200
                   (Json (VArr [raw_station "PAD" 51.5154 (-0.1755); VNull])))
       (Frontend.State [] None ∅)
     = (Throw TypeError, Frontend.State [] None ∅).
Proof. vm_compute. repeat split. Qed.

(** The two particular entries: a longitude of exactly 0, and a longitude
    held under [lon]; and an entry that is kept. *)
Example loadStations_particular :
  stations_of (VArr [on_the_meridian; lon_only; raw_station "PAD" 51.5154 (-0.1755)])
  = Ok [VObj [("name", VStr "PAD"); ("crs", VStr "PAD");
              ("lat", VNum 51.5154); ("lon", VNum (-0.1755))]].
Proof. vm_compute. reflexivity. Qed.

(** ** The cheapest fare *)

Lemma Qle_bool_minus (x y : Q) : Qle_bool (x - y) 0 = true <-> (x <= y)%Q.
Proof. rewrite Qle_bool_iff. split; intros; Lqa.lra. Qed.

#[global] Instance by_p_total : Total (fun a b => by_p a b = true).
Proof.
  intros a b. unfold by_p. rewrite !Qle_bool_minus.
  destruct (Qlt_le_dec (num (prop b "p")) (num (prop a "p"))); [right|left];
    Lqa.lra.
Qed.

#[global] Instance by_p_trans : Transitive (fun a b => by_p a b = true).
Proof. intros a b c. unfold by_p. rewrite !Qle_bool_minus. Lqa.lra. Qed.

#[global] Instance by_price_total : Total (fun a b => by_price a b = true).
Proof.
  intros a b. unfold by_price. rewrite !Qle_bool_minus.
  destruct (Qlt_le_dec (num (price b)) (num (price a))); [right|left];
    Lqa.lra.
Qed.

#[global] Instance by_price_trans : Transitive (fun a b => by_price a b = true).
Proof. intros a b c. unfold by_price. rewrite !Qle_bool_minus. Lqa.lra. Qed.

Section CheapestFacts.
Lemma assoc_set_prop k v ps : assoc k (set_prop k v ps) = Some v.
Proof.
  induction ps as [|[k' v'] ps IH]; simpl.
  - by rewrite String.eqb_refl.
  - destruct (String.eqb k k') eqn:E; simpl; by rewrite E.
Qed.

Lemma prop_spread_with o k v : prop (spread_with o k v) k = v.
Proof. unfold spread_with, prop. by rewrite assoc_set_prop. Qed.

Lemma mapM_Forall2 {A B} (g : A -> result B) l l' :
  mapM g l = Ok l' -> Forall2 (fun x y => g x = Ok y) l l'.
Proof.
  revert l'. induction l as [|x l IH]; intros l'; simpl.
  - intros [= <-]. constructor.
  - destruct (g x) as [y|e] eqn:Hx; simpl; [|done].
    destruct (mapM g l) as [ys|e]; simpl; [|done].
    intros [= <-]. constructor; [done|]. by apply IH.
Qed.

(** [getPrice] throws on [null] and [undefined] only. *)
Lemma getPrice_total f : nullish f = false -> exists p, getPrice f = Ok p.
Proof.
  intros Hf. unfold getPrice, get. rewrite Hf. simpl.
  destruct (is_number (prop f "adult")); simpl; [eauto|].
  destruct (prop f "price") as [| |[]|n|t| |] eqn:Hprice; simpl; eauto.
  - destruct (negb (Qeq_bool n 0)); simpl; eauto.
  - destruct (negb (String.eqb t "")); simpl; eauto.
Qed.

Lemma mapM_throw_inv {A B} (g : A -> result B) l e :
  mapM g l = Throw e -> exists x, x ∈ l /\ g x = Throw e.
Proof.
  induction l as [|x l IH]; simpl; [done|].
  destruct (g x) as [y|e'] eqn:Hx; simpl.
  - destruct (mapM g l) as [ys|e']; simpl; [done|].
    intros [= ->]. destruct IH as (x' & Hin & Hx'); [done|].
    exists x'. split; [by right|done].
  - intros [= ->]. exists x. split; [left|done].
Qed.

(** [parseCheapestFare] throws only on a [fares] array that has a [null]
    or [undefined] element. *)
Lemma parseCheapestFare_throws j e :
  parseCheapestFare j = Throw e ->
  exists fares f,
    prop j "fares" = VArr fares /\ f ∈ fares /\ nullish f = true.
Proof.
  unfold parseCheapestFare.
  destruct (negb (truthy j) || negb (isArray (prop j "fares"))); [done|].
  destruct (prop j "fares") as [| | | | |fares|] eqn:Hfares;
    try (simpl; done).
  destruct (mapM _ fares) as [mapped|e'] eqn:Hmapped; simpl.
  - destruct (_ =? _)%nat; done.
  - intros _. apply mapM_throw_inv in Hmapped as (f & Hin & Hf).
    exists fares, f. split; [done|]. split; [done|].
    destruct (nullish f) eqn:Hnull; [done|].
    destruct (getPrice_total f Hnull) as [p Hp]. by rewrite Hp in Hf.
Qed.

(** What [parseCheapestFare] returns when it returns a fare: an element
    of the array, with the price [getPrice] reads from it under [p], that
    price being a number no greater than any other number [getPrice]
    reads from an element. *)
Lemma parseCheapestFare_least j r :
  parseCheapestFare j = Ok r -> truthy r = true ->
  exists fares f p,
    prop j "fares" = VArr fares /\ f ∈ fares
    /\ getPrice f = Ok (VNum p) /\ r = spread_with f "p" (VNum p)
    /\ forall f' p', f' ∈ fares -> getPrice f' = Ok (VNum p') -> (p <= p')%Q.
Proof.
  unfold parseCheapestFare.
  destruct (negb (truthy j) || negb (isArray (prop j "fares")));
    [by intros [= <-]|].
  destruct (prop j "fares") as [| | | | |fares|] eqn:Hfares;
    try (simpl; by intros [= <-]).
  set (g := fun f => p ← getPrice f; Ok (spread_with f "p" p)).
  destruct (mapM g fares) as [mapped|e] eqn:Hmapped; simpl; [|done].
  apply mapM_Forall2 in Hmapped.
  set (withPrice := filter _ mapped).
  destruct (length withPrice =? 0)%nat; [by intros [= <-]|].
  destruct (head (JS.sort by_p withPrice)) as [r'|] eqn:Hhead; simpl;
    [|by intros [= <-]].
  intros [= <-] _.
  apply (sort_head_least by_p) in Hhead as [Hin Hleast].
  apply list_elem_of_filter in Hin as [Hnum Hin].
  apply list_elem_of_lookup in Hin as [i Hi].
  destruct (Forall2_lookup_r _ _ _ _ _ Hmapped Hi) as (f & Hf & Hg).
  unfold g in Hg. destruct (getPrice f) as [p|e] eqn:Hp; simpl in Hg; [|done].
  injection Hg as <-. rewrite prop_spread_with in Hnum.
  destruct p as [| | |p| | |]; try done.
  exists fares, f, p. repeat split; try done.
  - by eapply list_elem_of_lookup_2.
  - intros f' p' Hf' Hp'.
    apply list_elem_of_lookup in Hf' as [i' Hi'].
    destruct (Forall2_lookup_l _ _ _ _ _ Hmapped Hi') as (r' & Hr' & Hg').
    unfold g in Hg'. rewrite Hp' in Hg'. simpl in Hg'. injection Hg' as <-.
    assert (spread_with f' "p" (VNum p') ∈ withPrice) as Hin'.
    { apply list_elem_of_filter. split.
      - by rewrite prop_spread_with.
      - by eapply list_elem_of_lookup_2. }
    specialize (Hleast _ Hin'). unfold by_p in Hleast.
    rewrite !prop_spread_with in Hleast. simpl in Hleast.
    by apply Qle_bool_minus.
Qed.
End CheapestFacts.

(** The scenario of the specification. *)
Example parseCheapestFare_scenario :
  parseCheapestFare (VObj [("fares", VArr [fare 4500 "SVR"; fare 3200 "OFF"])])
  = Ok (VObj [("adult", VNum 3200); ("ticket", VStr "OFF"); ("p", VNum 3200)]).
Proof. vm_compute. reflexivity. Qed.

(** A [null] in the array: the property read in [getPrice] throws. *)
Example parseCheapestFare_null_entry :
  parseCheapestFare (VObj [("fares", VArr [VNull; fare 3200 "OFF"])])
  = Throw TypeError.
Proof. vm_compute. reflexivity. Qed.

(** C1 at a response in which a fare has no adult price but a [price] of 0.
    [f.price && f.price.adult] is then the number 0, which passes the
    [typeof] filter: the fare is not excluded, and it is returned as the
    cheapest with the price 0, ahead of the fare priced 3200. *)
Theorem parseCheapestFare_keeps_unpriced_fare :
  getPrice (VObj [("price", VNum 0); ("ticket", VStr "DAY")]) = Ok (VNum 0)
  /\ parseCheapestFare
       (VObj [("fares", VArr [VObj [("price", VNum 0); ("ticket", VStr "DAY")];
                             fare 3200 "OFF"])])
     = Ok (VObj [("price", VNum 0); ("ticket", VStr "DAY"); ("p", VNum 0)]).
Proof. split; vm_compute; reflexivity. Qed.

(** ** The comparison *)

Section CompareFacts.
Context (fetch : string -> reply) (stations : list value)
        (destCRS destName : string) (opts : options).

#[local] Abbreviation getFares' := (fun crs c => getFares fetch crs destCRS opts c).
#[local] Abbreviation yields' := (yields fetch stations destCRS destName opts).
#[local] Abbreviation compare_one' := (compare_one fetch stations destCRS destName opts).
#[local] Abbreviation compare_loop' := (compare_loop fetch stations destCRS destName opts).

(** One turn of the loop adds the row the origin yields, if any. *)
Lemma compare_one_yields crs rows c :
  compare_one' crs (rows, c)
  = (rows ++ option_list (yields' c crs), snd (getFares' crs c)).
Proof.
  unfold compare_one, yields.
  destruct (getFares fetch crs destCRS opts c) as [[fares|e] c']; simpl.
  - destruct (parseCheapestFare fares) as [cheapest|e]; simpl.
    + destruct (truthy cheapest); simpl; by rewrite ?app_nil_r.
    + by rewrite app_nil_r.
  - by rewrite app_nil_r.
Qed.

(** Filling the cache does not change what [getFares] returns: an entry
    it adds is the document a fetch for that key returns. *)
Lemma getFares_after crs' crs c :
  fst (getFares' crs (snd (getFares' crs' c))) = fst (getFares' crs c).
Proof.
  unfold getFares at 2.
  destruct (c !! cacheKey crs' destCRS opts) as [cached|] eqn:Hc'; [done|].
  destruct (json_of (fetch (fares_url crs' destCRS opts))) as [json|e]
    eqn:Hfetch; [|done].
  simpl. unfold getFares.
  destruct (decide (crs = crs')) as [->|Hne].
  - by rewrite lookup_insert_eq, Hc', Hfetch.
  - rewrite lookup_insert_ne.
    + destruct (c !! cacheKey crs destCRS opts); [done|].
      by destruct (json_of (fetch (fares_url crs destCRS opts))).
    + unfold cacheKey. intros [= Heq]. by apply Hne.
Qed.

Lemma yields_after crs' crs c :
  yields' (snd (getFares' crs' c)) crs = yields' c crs.
Proof. unfold yields. by rewrite getFares_after. Qed.

Lemma compare_loop_yields checked : forall rows c,
  fst (compare_loop' checked (rows, c)) = rows ++ omap (yields' c) checked.
Proof.
  unfold compare_loop.
  induction checked as [|crs checked IH]; intros rows c; cbn [foldl].
  - by rewrite app_nil_r.
  - rewrite compare_one_yields, IH, <- app_assoc. f_equal.
    rewrite (list_omap_ext (yields' (snd (getFares' crs c))) (yields' c)
               checked checked).
    + csimpl. by destruct (yields' c crs).
    + apply Forall_Forall2_diag, Forall_forall. intros. apply yields_after.
Qed.

End CompareFacts.

(** C5 at a selection of two origins.  Paddington's only fare has no
    numeric adult price (the number 0 stands under [price]), so it is to be
    passed over; King's Cross has a fare priced 3200, so it is to get a row.
    The code does the opposite.  [parseCheapestFare] returns Paddington's
    fare with the price 0, and a row priced 0 is shown for it; on the
    [null] entry ahead of the priced fare of King's Cross [getPrice] throws,
    the [catch] swallows it, and King's Cross gets no row. *)
Theorem comparison_shows_unpriced_origin :
  let out :=
    fst (compare_and_show odd_fares_service [] "MAN" "Manchester" single
           ["PAD"; "KGX"] ∅) in
  omap adult_price [unpriced] = []
  /\ omap adult_price [VNull; fare 3200 "OFF"] = [3200%Q]
  /\ parseCheapestFare (VObj [("fares", VArr [unpriced])])
     = Ok (VObj [("price", VNum 0); ("ticket", VStr "DAY"); ("p", VNum 0)])
  /\ parseCheapestFare (VObj [("fares", VArr [VNull; fare 3200 "OFF"])])
     = Throw TypeError
  /\ rendered out
     = Some [Row "PAD" (VStr "PAD") "MAN" "Manchester" (VStr "DAY")
                 (VStr "Cheapest") (VNum 0)]
  /\ status_text out = "Found 1 routes."
  /\ status_error out = false.
Proof. vm_compute. repeat split. Qed.

(** The scenario of the specification: of three origins one fails, and the
    other two are shown, the cheaper first. *)
Example comparison_scenario :
  let out := fst (compare_and_show fares_service [] "MAN" "Manchester" single
                    ["PAD"; "EUS"; "KGX"] ∅) in
  rendered out
  = Some [Row "KGX" (VStr "KGX") "MAN" "Manchester" (VStr "ADV")
              (VStr "Cheapest") (VNum 2100);
          Row "PAD" (VStr "PAD") "MAN" "Manchester" (VStr "OFF")
              (VStr "Cheapest") (VNum 3200)]
  /\ status_text out = "Found 2 routes."
  /\ status_error out = false.
Proof. vm_compute. repeat split. Qed.

(** * Further properties of the server *)

(** ** The cache, key by key *)

(** X1.  A write under one key and the eviction that a read of one key may
    do never touch another key: the other key reads the same before and
    after the write, and its entry, expired or not, is still in the map
    after the read (nothing is swept). *)
Theorem cache_keys_independent (k k' : string) (v : value) (ttlMs t0 t : Z)
    (c : gmap string entry) :
  k <> k' ->
  fst (getCache k' t (putCache k v ttlMs t0 c)) = fst (getCache k' t c)
  /\ snd (getCache k t c) !! k' = c !! k'
  /\ forall j e, snd (getCache k t c) !! j = Some e -> c !! j = Some e.
Proof.
  intros Hne. split; [|split].
  - unfold getCache, putCache. rewrite lookup_insert_ne by done.
    destruct (c !! k') as [hit|]; [|done]. by destruct (t >? expires hit)%Z.
  - unfold getCache. destruct (c !! k) as [hit|]; [|done].
    destruct (t >? expires hit)%Z; [|done]. simpl.
    by rewrite lookup_delete_ne.
  - intros j e. unfold getCache. destruct (c !! k) as [hit|]; [|done].
    destruct (t >? expires hit)%Z; [|done]. simpl.
    rewrite lookup_delete_Some. tauto.
Qed.

Lemma cache_keys_independent_witness :
  "fetch:a" <> "fetch:b"
  /\ fst (getCache "fetch:b" 7 (putCache "fetch:a" (VStr "x") 10 0 ∅))
     = fst (getCache "fetch:b" 7 ∅).
Proof.
  assert ("fetch:a" <> "fetch:b") as Hne by discriminate.
  split; [exact Hne|].
  exact (proj1 (cache_keys_independent "fetch:a" "fetch:b" (VStr "x")
                  10 0 7 ∅ Hne)).
Defined.

(** ** What the cached fetch keeps *)

Section FetchMore.
Context (w : world).

(** A read that is a miss stays a miss: the map the read leaves behind
    gives no truthy value under that key at any time. *)
Lemma getCache_miss_stays key t t' c :
  truthy (fst (getCache key t c)) = false ->
  truthy (fst (getCache key t' (snd (getCache key t c)))) = false.
Proof.
  unfold getCache. destruct (c !! key) as [hit|] eqn:Hc.
  - destruct (t >? expires hit)%Z; cbn [fst snd].
    + by rewrite lookup_delete_eq.
    + intros Hfalsy. rewrite Hc. by destruct (t' >? expires hit)%Z.
  - cbn [fst snd]. by rewrite Hc.
Qed.

(** On a miss the upstream is asked. *)
Lemma cachedFetchJson_miss url ttlMs s :
  truthy (fst (getCache ("fetch:" +:+ url) (now s) (cache s))) = false ->
  exists more,
    log (snd (cachedFetchJson w url ttlMs s))
    = log s ++ CacheGet ("fetch:" +:+ url) :: Fetch url :: more.
Proof.
  intros Hmiss. unfold cachedFetchJson. rewrite getCacheS_spec, Hmiss.
  destruct (upstream w url) as [|st b]; [log_tail|].
  destruct (negb (ok st)), b; log_tail.
Qed.

(** When it throws, the map is the one the read left. *)
Lemma cachedFetchJson_throws_cache url ttlMs s e :
  fst (cachedFetchJson w url ttlMs s) = Throw e ->
  truthy (fst (getCache ("fetch:" +:+ url) (now s) (cache s))) = false
  /\ cache (snd (cachedFetchJson w url ttlMs s))
     = snd (getCache ("fetch:" +:+ url) (now s) (cache s)).
Proof.
  unfold cachedFetchJson. rewrite getCacheS_spec.
  destruct (truthy _) eqn:Hhit; [done|].
  destruct (upstream w url) as [|st b]; [done|].
  destruct (negb (ok st)), b; done.
Qed.

(** When it returns after a miss, the document is in the map, to expire
    [ttlMs] after the instant the answer arrived. *)
Lemma cachedFetchJson_fetched url ttlMs s json :
  truthy (fst (getCache ("fetch:" +:+ url) (now s) (cache s))) = false ->
  fst (cachedFetchJson w url ttlMs s) = Ok json ->
  let s' := snd (cachedFetchJson w url ttlMs s) in
  cache s' !! ("fetch:" +:+ url) = Some (Entry json (now s' + ttlMs))
  /\ now s' = (now s + elapsed w url)%Z.
Proof.
  intros Hmiss. unfold cachedFetchJson. rewrite getCacheS_spec, Hmiss.
  destruct (upstream w url) as [|st b]; [done|].
  destruct (negb (ok st)), b; try done.
  simpl. intros [= ->]. split; [|done]. apply lookup_insert_eq.
Qed.
End FetchMore.

(** X2.  A document fetched on a miss is served from the cache afterwards:
    if it is truthy, every call for the same URL made no later than [ttlMs]
    after the answer arrived returns it without asking the upstream,
    whatever the upstream would answer by then and whatever TTL the later
    call names. *)
Theorem fetched_document_is_served_from_cache (w w' : world) (url : string)
    (ttlMs ttl' d : Z) (s : Server.state) (json : value) :
  truthy (fst (getCache ("fetch:" +:+ url) (now s) (cache s))) = false ->
  fst (cachedFetchJson w url ttlMs s) = Ok json ->
  truthy json = true ->
  (d <= ttlMs)%Z ->
  let later := advance d (snd (cachedFetchJson w url ttlMs s)) in
  cachedFetchJson w' url ttl' later
  = (Ok json, note (CacheGet ("fetch:" +:+ url)) later).
Proof.
  intros Hmiss Hok Htruthy Hd later.
  destruct (cachedFetchJson_fetched w url ttlMs s json Hmiss Hok) as [Hkey _].
  apply (cachedFetchJson_truthy_hit w' url ttl' later
           (Entry json (now (snd (cachedFetchJson w url ttlMs s)) + ttlMs)));
    [exact Hkey|simpl; lia|exact Htruthy].
Qed.

Lemma fetched_document_is_served_from_cache_witness :
  truthy (fst (getCache ("fetch:" +:+ "u") (now fresh) (cache fresh))) = false
  /\ cachedFetchJson unreachable "u" 5
       (advance 600000
          (snd (cachedFetchJson (answers (VArr [])) "u" 600000 fresh)))
     = (Ok (VArr []),
        note (CacheGet ("fetch:" +:+ "u"))
          (advance 600000
             (snd (cachedFetchJson (answers (VArr [])) "u" 600000 fresh)))).
Proof.
  assert (truthy (fst (getCache ("fetch:" +:+ "u") (now fresh) (cache fresh)))
          = false) as Hmiss by (vm_compute; reflexivity).
  assert (fst (cachedFetchJson (answers (VArr [])) "u" 600000 fresh)
          = Ok (VArr [])) as Hok by (vm_compute; reflexivity).
  split; [exact Hmiss|].
  apply (fetched_document_is_served_from_cache (answers (VArr [])) unreachable
           "u" 600000 5 600000 fresh (VArr []) Hmiss Hok);
    [reflexivity|lia].
Defined.

Lemma getCache_adds_nothing key t (c : gmap string entry) j e :
  snd (getCache key t c) !! j = Some e -> c !! j = Some e.
Proof.
  unfold getCache. destruct (c !! key) as [hit|]; [|done].
  destruct (t >? expires hit)%Z; [|done]. simpl.
  rewrite lookup_delete_Some. tauto.
Qed.

(** X3.  A failure is never cached.  When the cached fetch throws, the map
    holds no entry it did not hold before, and the next call for the same
    URL, whenever it comes, asks the upstream again. *)
Theorem failed_fetch_is_not_cached (w w' : world) (url : string)
    (ttlMs ttl' d : Z) (s : Server.state) (e : error) :
  fst (cachedFetchJson w url ttlMs s) = Throw e ->
  let s' := snd (cachedFetchJson w url ttlMs s) in
  (forall j en, cache s' !! j = Some en -> cache s !! j = Some en)
  /\ exists more,
       log (snd (cachedFetchJson w' url ttl' (advance d s')))
       = log s' ++ CacheGet ("fetch:" +:+ url) :: Fetch url :: more.
Proof.
  intros Hthrow s'.
  destruct (cachedFetchJson_throws_cache w url ttlMs s e Hthrow)
    as [Hmiss Hcache].
  split.
  - intros j en. subst s'. rewrite Hcache. apply getCache_adds_nothing.
  - apply (cachedFetchJson_miss w' url ttl' (advance d s')).
    simpl. subst s'. rewrite Hcache. by apply getCache_miss_stays.
Qed.

Lemma failed_fetch_is_not_cached_witness :
  fst (cachedFetchJson overloaded "u" 600000 fresh) = Throw (Error (Some 503%positive))
  /\ forall j en,
       cache (snd (cachedFetchJson overloaded "u" 600000 fresh)) !! j = Some en ->
       cache fresh !! j = Some en.
Proof.
  assert (fst (cachedFetchJson overloaded "u" 600000 fresh)
          = Throw (Error (Some 503%positive))) as Hthrow
    by (vm_compute; reflexivity).
  split; [exact Hthrow|].
  exact (proj1 (failed_fetch_is_not_cached overloaded overloaded "u"
                  600000 600000 0 fresh _ Hthrow)).
Defined.

(** ** What the endpoints answer *)

Section AnswerFacts.
Context (JSON_parse : string -> option value)
        (JSON_stringify : value -> string)
        (w : world) (TTL : ttl).

Lemma status_or_502_not_ok url ttlMs (s : Server.state) e :
  fst (cachedFetchJson w url ttlMs s) = Throw e ->
  ok (status_or_502 e) = false.
Proof.
  intros Hthrow. pose proof (cachedFetchJson_throws w _ _ _ _ Hthrow) as Hst.
  unfold status_or_502. rewrite Hst.
  destruct (upstream w url) as [|st b]; [done|].
  destruct (ok st) eqn:Hok; [done|]. by destruct b.
Qed.

Lemma truthy_qvalue (q : gmap string string) k :
  truthy (qvalue q k) = nonempty (q !! k).
Proof. unfold qvalue, nonempty. by destruct (q !! k). Qed.

Lemma search_answer endpoint failure q s :
  fst (search w TTL endpoint failure q s)
  = if String.eqb (term_of q) "" then Res 200 (VArr [])
    else answer_for failure
           (fst (cachedFetchJson w
                   (endpoint +:+ Text.encodeURIComponent (term_of q))
                   (SEARCH_MS TTL) s)).
Proof.
  unfold search. simpl. destruct (String.eqb (term_of q) ""); simpl; [done|].
  destruct (cachedFetchJson w _ (SEARCH_MS TTL) s) as [[json|e] s']; done.
Qed.
End AnswerFacts.

(** X4.  What the four proxy endpoints answer is decided by what
    [cachedFetchJson] comes to.  A document it returns is answered with 200,
    unchanged.  When it throws, the answer is the endpoint's [{error}] body
    under the status of the failure, or 502 when it has none, and that
    status is never a 2xx; only GET /api/stations answers 200 then, with the
    document of the fallback file, when the file parses.  A blank search
    term is answered with 200 and [[]], and a fares query without [orig] or
    [dest] with 400.  So a failed fetch is never reported as a success, and
    a status that is not 200 always comes with an [{error}] body. *)
Theorem endpoints_answer_document_or_error
    (JSON_parse : string -> option value) (JSON_stringify : value -> string)
    (w : world) (TTL : ttl) (q : gmap string string) (s : Server.state) :
  (forall url ttlMs e,
     fst (cachedFetchJson w url ttlMs s) = Throw e ->
     ok (status_or_502 e) = false)
  /\ fst (api_stations JSON_parse JSON_stringify w TTL s)
     = match fst (cachedFetchJson w stationsRemote (STATIONS_MS TTL) s) with
       | Ok json => Res 200 json
       | Throw e =>
           match file s ≫= JSON_parse with
           | Some v => Res 200 v
           | None => Res (status_or_502 e)
                         (VObj [("error", VStr "Failed to retrieve stations")])
           end
       end
  /\ fst (api_loc w TTL q s)
     = (if String.eqb (term_of q) "" then Res 200 (VArr [])
        else answer_for "Failed to search locations"
               (fst (cachedFetchJson w
                       ("https://gw.brfares.com/legacy_ac_loc?term="
                        +:+ Text.encodeURIComponent (term_of q))
                       (SEARCH_MS TTL) s)))
  /\ fst (api_railcards w TTL q s)
     = (if String.eqb (term_of q) "" then Res 200 (VArr [])
        else answer_for "Failed to search railcards"
               (fst (cachedFetchJson w
                       ("https://gw.brfares.com/legacy_ac_rlc?term="
                        +:+ Text.encodeURIComponent (term_of q))
                       (SEARCH_MS TTL) s)))
  /\ fst (api_fares w TTL q s)
     = (if nonempty (q !! "orig") && nonempty (q !! "dest")
        then answer_for "Failed to fetch fares"
               (fst (cachedFetchJson w (Server.fares_url q) (FARES_MS TTL) s))
        else Res 400 (VObj [("error", VStr "orig and dest are required")])).
Proof.
  split; [intros url ttlMs e; apply status_or_502_not_ok|].
  split.
  { unfold api_stations.
    pose proof (cachedFetchJson_file w stationsRemote (STATIONS_MS TTL) s)
      as Hfile.
    destruct (cachedFetchJson w stationsRemote (STATIONS_MS TTL) s)
      as [[json|e] s']; simpl in *; [done|].
    rewrite Hfile. by destruct (file s ≫= JSON_parse). }
  split; [apply search_answer|]. split; [apply search_answer|].
  unfold api_fares. rewrite !truthy_qvalue.
  destruct (nonempty (q !! "orig")), (nonempty (q !! "dest")); simpl; try done.
  destruct (cachedFetchJson w _ (FARES_MS TTL) s) as [[json|e] s']; done.
Qed.

Lemma endpoints_answer_document_or_error_witness :
  fst (cachedFetchJson overloaded (Server.fares_url return_flag_zero)
         600000 fresh)
  = Throw (Error (Some 503%positive))
  /\ ok (status_or_502 (Error (Some 503%positive))) = false.
Proof.
  assert (fst (cachedFetchJson overloaded (Server.fares_url return_flag_zero)
                 600000 fresh)
          = Throw (Error (Some 503%positive))) as Hthrow
    by (vm_compute; reflexivity).
  split; [exact Hthrow|].
  exact (proj1 (endpoints_answer_document_or_error parse_empty_array
                  print_nothing overloaded day return_flag_zero fresh)
           _ _ _ Hthrow).
Defined.

(** ** The stations mirror *)

Section MirrorFacts.
Context (JSON_parse : string -> option value)
        (JSON_stringify : value -> string)
        (w : world) (TTL : ttl).

(** What the upstream call of [cachedFetchJson] comes to. *)
#[local] Abbreviation outcome url :=
  (match upstream w url with
   | Rejected => Throw (Error None)
   | Response st b =>
       if negb (ok st) then
         match b with
         | Unreadable => Throw (Error None)
         | _ => Throw (Error (Some st))
         end
       else
         match b with
         | Json json => Ok json
         | _ => Throw (Error None)
         end
   end).

Lemma cachedFetchJson_unfold url ttlMs (s : Server.state) :
  let key := "fetch:" +:+ url in
  let hit := fst (getCache key (now s) (cache s)) in
  let left := snd (getCache key (now s) (cache s)) in
  let s' := snd (cachedFetchJson w url ttlMs s) in
  fst (cachedFetchJson w url ttlMs s)
  = (if truthy hit then Ok hit else outcome url)
  /\ cache s'
     = (if truthy hit then left
        else match outcome url with
             | Ok json => putCache key json ttlMs (now s + elapsed w url) left
             | Throw _ => left
             end)
  /\ now s' = (if truthy hit then now s else now s + elapsed w url)%Z.
Proof.
  unfold cachedFetchJson. rewrite getCacheS_spec.
  destruct (truthy _); [done|].
  destruct (upstream w url) as [|st b]; [done|].
  destruct (negb (ok st)), b; done.
Qed.

(** Asked twice in a row, with no time passing in between, the cached fetch
    gives the same result twice. *)
Lemma cachedFetchJson_again url ttlMs (s s2 : Server.state) :
  cache s2 = cache (snd (cachedFetchJson w url ttlMs s)) ->
  now s2 = now (snd (cachedFetchJson w url ttlMs s)) ->
  fst (cachedFetchJson w url ttlMs s2) = fst (cachedFetchJson w url ttlMs s).
Proof.
  destruct (cachedFetchJson_unfold url ttlMs s) as (Hfst & Hcache & Hnow).
  destruct (cachedFetchJson_unfold url ttlMs s2) as (Hfst2 & _ & _).
  rewrite Hfst, Hfst2, Hcache, Hnow. clear Hfst Hfst2 Hcache Hnow.
  intros -> ->.
  destruct (truthy (fst (getCache ("fetch:" +:+ url) (now s) (cache s))))
    eqn:Hhit.
  - (* a hit: the read left the map as it was *)
    assert (snd (getCache ("fetch:" +:+ url) (now s) (cache s)) = cache s)
      as ->.
    { revert Hhit. unfold getCache.
      destruct (cache s !! ("fetch:" +:+ url)) as [hit|]; [|done].
      by destruct (now s >? expires hit)%Z. }
    by rewrite Hhit.
  - destruct (outcome url) as [json|e] eqn:Hout.
    + pose proof (putCache_lookup ("fetch:" +:+ url) json ttlMs
                    (now s + elapsed w url)
                    (snd (getCache ("fetch:" +:+ url) (now s) (cache s))))
        as Hput.
      destruct (Z_le_gt_dec 0 ttlMs).
      * rewrite (getCache_live _ _ _ _ Hput) by (simpl; lia). simpl.
        by destruct (truthy json).
      * rewrite (getCache_expired _ _ _ _ Hput) by (simpl; lia). done.
    + by rewrite (getCache_miss_stays _ _ _ _ Hhit).
Qed.

Lemma write_through_cache json (s : Server.state) :
  cache (write_through JSON_stringify w json s) = cache s
  /\ now (write_through JSON_stringify w json s) = now s.
Proof. unfold write_through. by destruct (writable w). Qed.

Lemma write_through_file json (s : Server.state) :
  file (write_through JSON_stringify w json s)
  = if writable w then Some (JSON_stringify json) else file s.
Proof. unfold write_through. by destruct (writable w). Qed.

(** What GET /api/stations answers when the fetch fails. *)
Lemma api_stations_on_failure (s : Server.state) e :
  fst (cachedFetchJson w stationsRemote (STATIONS_MS TTL) s) = Throw e ->
  fst (api_stations JSON_parse JSON_stringify w TTL s)
  = match file s ≫= JSON_parse with
    | Some v => Res 200 v
    | None => Res (status_or_502 e)
                  (VObj [("error", VStr "Failed to retrieve stations")])
    end.
Proof.
  intros Hthrow. unfold api_stations.
  pose proof (cachedFetchJson_file w stationsRemote (STATIONS_MS TTL) s) as Hf.
  destruct (cachedFetchJson w stationsRemote (STATIONS_MS TTL) s) as [r s'].
  simpl in *. subst r. simpl. rewrite Hf.
  by destruct (file s ≫= JSON_parse).
Qed.
End MirrorFacts.

(** X5.  Refreshing the stations twice in a row against an unchanged
    upstream leaves the fallback file as the first refresh left it: the
    second refresh obtains the same document (from the cache or from the
    upstream) or fails as the first did. *)
Theorem refresh_twice_same_file (JSON_stringify : value -> string)
    (w : world) (TTL : ttl) (s : Server.state) :
  file (refreshStationsBackground JSON_stringify w TTL
          (refreshStationsBackground JSON_stringify w TTL s))
  = file (refreshStationsBackground JSON_stringify w TTL s).
Proof.
  unfold refreshStationsBackground.
  pose proof (cachedFetchJson_file w stationsRemote (STATIONS_MS TTL) s) as Hf.
  destruct (cachedFetchJson w stationsRemote (STATIONS_MS TTL) s)
    as [[json|e] s1] eqn:Hfirst; simpl in Hf.
  - (* the first refresh got the document *)
    pose proof (cachedFetchJson_again w stationsRemote (STATIONS_MS TTL) s
                  (write_through JSON_stringify w json s1)) as Hagain.
    rewrite Hfirst in Hagain. simpl in Hagain.
    destruct (write_through_cache JSON_stringify w json s1) as [Hc Hn].
    specialize (Hagain Hc Hn).
    pose proof (cachedFetchJson_file w stationsRemote (STATIONS_MS TTL)
                  (write_through JSON_stringify w json s1)) as Hf2.
    destruct (cachedFetchJson w stationsRemote (STATIONS_MS TTL)
                (write_through JSON_stringify w json s1)) as [r2 s2].
    simpl in Hagain, Hf2. subst r2.
    rewrite !write_through_file, Hf2, write_through_file.
    by destruct (writable w).
  - (* the first refresh failed *)
    pose proof (cachedFetchJson_again w stationsRemote (STATIONS_MS TTL) s s1)
      as Hagain.
    rewrite Hfirst in Hagain. simpl in Hagain.
    specialize (Hagain eq_refl eq_refl).
    pose proof (cachedFetchJson_file w stationsRemote (STATIONS_MS TTL) s1)
      as Hf2.
    destruct (cachedFetchJson w stationsRemote (STATIONS_MS TTL) s1)
      as [r2 s2].
    simpl in Hagain, Hf2. by subst r2.
Qed.

(** X6.  The mirror serves what was last fetched.  Once GET /api/stations has
    answered with a fetched document and the data directory can be written,
    the fallback file holds its text; and as long as the file is left alone
    and that text parses back to the document, a later request whose fetch
    fails is answered 200 with that same document. *)
Theorem stations_mirror_serves_last_document
    (JSON_parse : string -> option value) (JSON_stringify : value -> string)
    (w w2 : world) (TTL : ttl) (s s2 : Server.state) (json : value) (e : error) :
  fst (cachedFetchJson w stationsRemote (STATIONS_MS TTL) s) = Ok json ->
  writable w = true ->
  JSON_parse (JSON_stringify json) = Some json ->
  file s2 = file (snd (api_stations JSON_parse JSON_stringify w TTL s)) ->
  fst (cachedFetchJson w2 stationsRemote (STATIONS_MS TTL) s2) = Throw e ->
  fst (api_stations JSON_parse JSON_stringify w TTL s) = Res 200 json
  /\ file (snd (api_stations JSON_parse JSON_stringify w TTL s))
     = Some (JSON_stringify json)
  /\ fst (api_stations JSON_parse JSON_stringify w2 TTL s2) = Res 200 json.
Proof.
  intros Hok Hw Hround Hfile Hthrow.
  assert (fst (api_stations JSON_parse JSON_stringify w TTL s) = Res 200 json
          /\ file (snd (api_stations JSON_parse JSON_stringify w TTL s))
             = Some (JSON_stringify json)) as [Hans Hwritten].
  { unfold api_stations.
    destruct (cachedFetchJson w stationsRemote (STATIONS_MS TTL) s) as [r s1].
    simpl in Hok. subst r. simpl. split; [done|].
    by rewrite write_through_file, Hw. }
  split; [done|]. split; [done|].
  rewrite (api_stations_on_failure JSON_parse JSON_stringify w2 TTL s2 e Hthrow).
  rewrite Hfile, Hwritten. simpl. by rewrite Hround.
Qed.

Lemma stations_mirror_serves_last_document_witness :
  fst (cachedFetchJson (answers (VArr [])) stationsRemote (STATIONS_MS day) fresh)
  = Ok (VArr [])
  /\ fst (api_stations parse_empty_array print_brackets unreachable day
            (Server.State ∅ 90000000 (Some "[]") []))
     = Res 200 (VArr []).
Proof.
  assert (fst (cachedFetchJson (answers (VArr [])) stationsRemote
                 (STATIONS_MS day) fresh) = Ok (VArr [])) as Hok
    by (vm_compute; reflexivity).
  assert (fst (cachedFetchJson unreachable stationsRemote (STATIONS_MS day)
                 (Server.State ∅ 90000000 (Some "[]") []))
          = Throw (Error None)) as Hthrow by (vm_compute; reflexivity).
  split; [exact Hok|].
  refine (proj2 (proj2 (stations_mirror_serves_last_document
            parse_empty_array print_brackets (answers (VArr [])) unreachable
            day fresh (Server.State ∅ 90000000 (Some "[]") []) (VArr [])
            (Error None) Hok _ _ _ Hthrow))); vm_compute; reflexivity.
Defined.

(** ** Percent-encoding *)

(** Brings an append whose left side starts with known characters to its
    head form. *)
Ltac app_simpl :=
  repeat (change (String ?a ?r +:+ ?z) with (String a (r +:+ z))
          || change (EmptyString +:+ ?z) with z).

Section EncodeFacts.
Context (keep : ascii -> bool) (plus : bool).

(** What one character is encoded as. *)
#[local] Abbreviation unit_of a :=
  (if keep a then String a EmptyString
   else if plus && Nat.eqb (Text.byte a) 32 then "+"
   else Text.percent a).

Lemma byte_inj a b : Text.byte a = Text.byte b -> a = b.
Proof.
  unfold Text.byte. intros H.
  by rewrite <- (ascii_nat_embedding a), <- (ascii_nat_embedding b), H.
Qed.

Lemma hex_digit_inj n m :
  n < 16 -> m < 16 -> Text.hex_digit n = Text.hex_digit m -> n = m.
Proof.
  unfold Text.hex_digit. intros Hn Hm H.
  apply (f_equal nat_of_ascii) in H.
  destruct (Nat.ltb_spec n 10), (Nat.ltb_spec m 10);
    rewrite !nat_ascii_embedding in H by lia; lia.
Qed.

Lemma percent_inj a b x y :
  Text.percent a +:+ x = Text.percent b +:+ y -> a = b /\ x = y.
Proof.
  unfold Text.percent.
  change (String "%" (String ?h1 (String ?h2 EmptyString)) +:+ ?z)
    with (String "%" (String h1 (String h2 z))).
  remember (Text.hex_digit (Text.byte a / 16)) as a1 eqn:Ea1.
  remember (Text.hex_digit (Text.byte a mod 16)) as a2 eqn:Ea2.
  remember (Text.hex_digit (Text.byte b / 16)) as b1 eqn:Eb1.
  remember (Text.hex_digit (Text.byte b mod 16)) as b2 eqn:Eb2.
  intros H. injection H as H1 H2 H3. subst a1 a2 b1 b2.
  split; [|done].
  pose proof (nat_ascii_bounded a) as Ha.
  pose proof (nat_ascii_bounded b) as Hb. fold (Text.byte a) (Text.byte b) in *.
  apply hex_digit_inj in H1;
    [|apply Nat.Div0.div_lt_upper_bound; lia..].
  apply hex_digit_inj in H2; [|apply Nat.mod_upper_bound; lia..].
  apply byte_inj.
  rewrite (Nat.div_mod_eq (Text.byte a) 16), (Nat.div_mod_eq (Text.byte b) 16).
  by rewrite H1, H2.
Qed.

Hypothesis keep_percent : keep "%" = false.
Hypothesis keep_plus : plus = true -> keep "+" = false.

Lemma unit_of_inj a b x y :
  unit_of a +:+ x = unit_of b +:+ y -> a = b /\ x = y.
Proof.
  destruct (keep a) eqn:Ka, (keep b) eqn:Kb.
  - app_simpl. by intros [= -> ->].
  - destruct (plus && Nat.eqb (Text.byte b) 32) eqn:Pb.
    + app_simpl. intros [= -> _]. apply andb_prop in Pb as [-> _].
      rewrite keep_plus in Ka; done.
    + unfold Text.percent. app_simpl. intros [= -> _]. congruence.
  - destruct (plus && Nat.eqb (Text.byte a) 32) eqn:Pa.
    + app_simpl. intros [= <- _]. apply andb_prop in Pa as [-> _].
      rewrite keep_plus in Kb; done.
    + unfold Text.percent. app_simpl. intros [= <- _]. congruence.
  - destruct (plus && Nat.eqb (Text.byte a) 32) eqn:Pa,
      (plus && Nat.eqb (Text.byte b) 32) eqn:Pb.
    + app_simpl. intros [= ->]. split; [|done].
      apply andb_prop in Pa as [_ Pa]. apply andb_prop in Pb as [_ Pb].
      apply Nat.eqb_eq in Pa, Pb. apply byte_inj. congruence.
    + unfold Text.percent. app_simpl. intros H. discriminate H.
    + unfold Text.percent. app_simpl. intros H. discriminate H.
    + apply percent_inj.
Qed.

Lemma percent_encode_cons a r :
  Text.percent_encode keep plus (String a r)
  = unit_of a +:+ Text.percent_encode keep plus r.
Proof. done. Qed.

(** Distinct strings have distinct encodings. *)
Lemma percent_encode_inj s1 : forall s2,
  Text.percent_encode keep plus s1 = Text.percent_encode keep plus s2 ->
  s1 = s2.
Proof.
  induction s1 as [|a r IH]; intros [|b r2].
  - done.
  - rewrite percent_encode_cons. change (Text.percent_encode keep plus "") with "".
    destruct (keep b); [app_simpl; done|].
    destruct (plus && _); unfold Text.percent; app_simpl; done.
  - rewrite percent_encode_cons. change (Text.percent_encode keep plus "") with "".
    destruct (keep a); [app_simpl; done|].
    destruct (plus && _); unfold Text.percent; app_simpl; done.
  - rewrite !percent_encode_cons. intros H.
    apply unit_of_inj in H as [-> H]. f_equal. by apply IH.
Qed.
End EncodeFacts.

Lemma String_append_inj_l (p x y : string) : p +:+ x = p +:+ y -> x = y.
Proof. induction p as [|a p IH]; simpl; [done|]. intros [= H]. by apply IH. Qed.

(** X7.  The location and the railcard search never share a cache entry,
    and two searches of one kind share one only when their terms, once
    trimmed, are the same: [encodeURIComponent] sends distinct terms to
    distinct URLs, and the two endpoints differ. *)
Theorem search_urls_distinct (t1 t2 : string) :
  ("https://gw.brfares.com/legacy_ac_loc?term=" +:+ Text.encodeURIComponent t1
   = "https://gw.brfares.com/legacy_ac_loc?term=" +:+ Text.encodeURIComponent t2
   -> t1 = t2)
  /\ ("https://gw.brfares.com/legacy_ac_rlc?term=" +:+ Text.encodeURIComponent t1
      = "https://gw.brfares.com/legacy_ac_rlc?term=" +:+ Text.encodeURIComponent t2
      -> t1 = t2)
  /\ "https://gw.brfares.com/legacy_ac_loc?term=" +:+ Text.encodeURIComponent t1
     <> "https://gw.brfares.com/legacy_ac_rlc?term=" +:+ Text.encodeURIComponent t2.
Proof.
  split; [|split].
  - intros H. apply String_append_inj_l in H.
    by apply (percent_encode_inj _ false) in H.
  - intros H. apply String_append_inj_l in H.
    by apply (percent_encode_inj _ false) in H.
  - app_simpl. intros H. discriminate H.
Qed.

Lemma search_urls_distinct_witness :
  "https://gw.brfares.com/legacy_ac_loc?term=" +:+ Text.encodeURIComponent "a b"
  <> "https://gw.brfares.com/legacy_ac_rlc?term=" +:+ Text.encodeURIComponent "a b".
Proof. exact (proj2 (proj2 (search_urls_distinct "a b" "a b"))). Defined.

Section AlphabetFacts.
Lemma chars_app s1 s2 :
  list_ascii_of_string (s1 +:+ s2)
  = list_ascii_of_string s1 ++ list_ascii_of_string s2.
Proof.
  induction s1 as [|a s1 IH]; [done|].
  app_simpl. simpl. by rewrite IH.
Qed.

Lemma hex_digit_alnum n : n < 16 -> Text.is_alnum (Text.hex_digit n) = true.
Proof.
  intros Hn. do 16 (destruct n as [|n]; [reflexivity|]). lia.
Qed.

(** Every character of a form-encoded string is a letter, a digit or one of
    [*-._+%]. *)
Lemma form_encode_chars s a :
  In a (list_ascii_of_string (Text.form_encode s)) ->
  Text.is_alnum a = true \/ Text.one_of "*-._+%" a = true.
Proof.
  unfold Text.form_encode. induction s as [|b r IH]; [done|].
  cbn [Text.percent_encode]. rewrite chars_app, in_app_iff.
  intros [H|H]; [|by apply IH]. clear IH.
  destruct (Text.is_alnum b || Text.one_of "*-._" b) eqn:Kb.
  - destruct H as [<-|[]]. apply orb_prop in Kb as [Kb|Kb]; [by left|right].
    unfold Text.one_of in *. simpl in *.
    repeat (apply orb_prop in Kb as [Kb|Kb]; [rewrite Kb; by rewrite ?orb_true_r|]).
    done.
  - destruct (true && Nat.eqb (Text.byte b) 32).
    + destruct H as [<-|[]]. by right.
    + pose proof (nat_ascii_bounded b) as Hb. fold (Text.byte b) in Hb.
      destruct H as [<-|[<-|[<-|[]]]].
      * by right.
      * left. apply hex_digit_alnum, Nat.Div0.div_lt_upper_bound. lia.
      * left. apply hex_digit_alnum, Nat.mod_upper_bound. lia.
Qed.

Lemma form_encode_no_separator s (c : ascii) :
  Text.is_alnum c = false -> Text.one_of "*-._+%" c = false ->
  count_occ ascii_dec (list_ascii_of_string (Text.form_encode s)) c = 0.
Proof.
  intros H1 H2. apply count_occ_not_In. intros Hin.
  apply form_encode_chars in Hin as [Hin|Hin]; congruence.
Qed.
End AlphabetFacts.

(** X8.  In the query string that [URLSearchParams] writes, [&] occurs only
    between two parameters and [=] only between a name and its value,
    whatever the names and values contain: a value such as [x&rtn=1] cannot
    add a parameter to the request sent upstream. *)
Theorem toString_separators (ps : Text.URLSearchParams) :
  count_occ ascii_dec (list_ascii_of_string (Text.toString ps)) "&"%char
  = length ps - 1
  /\ count_occ ascii_dec (list_ascii_of_string (Text.toString ps)) "="%char
     = length ps.
Proof.
  induction ps as [|[n v] r [IHamp IHeq]]; [done|].
  cbn [Text.toString].
  rewrite !chars_app, !count_occ_app.
  rewrite !(form_encode_no_separator _ "&"%char) by reflexivity.
  rewrite !(form_encode_no_separator _ "="%char) by reflexivity.
  destruct r as [|p r].
  - done.
  - rewrite !chars_app, !count_occ_app, IHamp, IHeq. simpl. split; lia.
Qed.

(** ** Searching for a term that is not blank *)

Section TrimFacts.
Lemma all_ws_trimStart_bounded n : forall s,
  String.length s <= n -> Text.all_ws (Text.trimStart s) = Text.all_ws s.
Proof.
  induction n as [|n IH]; intros [|a r] Hlen; try done; simpl in Hlen.
  - lia.
  - cbn [Text.all_ws Text.trimStart].
    destruct (Text.ws1 a) eqn:H1; [apply IH; lia|].
    destruct r as [|b r2]; [cbn [Text.all_ws]; by rewrite H1|]. simpl in Hlen.
    destruct (Text.ws2 a b) eqn:H2; [apply IH; lia|].
    destruct r2 as [|c r3]; [cbn [Text.all_ws]; by rewrite H1, H2|].
    simpl in Hlen.
    destruct (Text.ws3 a b c) eqn:H3; [apply IH; lia|].
    cbn [Text.all_ws]. by rewrite H1, H2, H3.
Qed.

Lemma trimEnd_empty s : Text.trimEnd s = "" -> Text.all_ws s = true.
Proof.
  destruct s as [|a r]; [done|]. cbn [Text.trimEnd].
  by destruct (Text.all_ws (String a r)).
Qed.

(** Only white space trims to the empty string. *)
Lemma trim_empty s : Text.trim s = "" -> Text.all_ws s = true.
Proof.
  unfold Text.trim. intros H. apply trimEnd_empty in H.
  by rewrite (all_ws_trimStart_bounded (String.length s)) in H.
Qed.
End TrimFacts.

(** X9.  When [term] is present and not made of white space only, both
    search endpoints go to the cache, and the key they read is that of the
    endpoint's URL with the trimmed term, URI-encoded: white space around
    the term plays no part in the request. *)
Theorem search_asks_for_trimmed_term (w : world) (TTL : ttl)
    (q : gmap string string) (s : Server.state) (t : string) :
  q !! "term" = Some t ->
  Text.all_ws t = false ->
  Text.trim t <> ""
  /\ (exists more,
        log (snd (api_loc w TTL q s))
        = log s
          ++ CacheGet ("fetch:" +:+ "https://gw.brfares.com/legacy_ac_loc?term="
                       +:+ Text.encodeURIComponent (Text.trim t)) :: more)
  /\ (exists more,
        log (snd (api_railcards w TTL q s))
        = log s
          ++ CacheGet ("fetch:" +:+ "https://gw.brfares.com/legacy_ac_rlc?term="
                       +:+ Text.encodeURIComponent (Text.trim t)) :: more).
Proof.
  intros Hq Hws.
  assert (Text.trim t <> "") as Htrim.
  { intros H. apply trim_empty in H. congruence. }
  assert (term_of q = Text.trim t) as Hterm.
  { unfold term_of, qvalue, or_else. rewrite Hq. simpl.
    destruct t as [|a r]; [done|]. done. }
  split; [done|].
  assert (forall endpoint failure,
            exists more,
              log (snd (search w TTL endpoint failure q s))
              = log s
                ++ CacheGet ("fetch:" +:+ endpoint
                             +:+ Text.encodeURIComponent (Text.trim t)) :: more)
    as Hsearch.
  { intros endpoint failure. unfold search. rewrite Hterm.
    destruct (Text.trim t) as [|a r] eqn:E; [done|]. cbn [truthy negb String.eqb].
    destruct (cachedFetchJson_log w (endpoint +:+ Text.encodeURIComponent (String a r))
                (SEARCH_MS TTL) s) as [more Hlog].
    destruct (cachedFetchJson w _ (SEARCH_MS TTL) s) as [[json|e] s'];
      simpl in *; eauto. }
  split; apply Hsearch.
Qed.

Lemma search_asks_for_trimmed_term_witness :
  ({[ "term" := " PAD " ]} : gmap string string) !! "term" = Some " PAD "
  /\ Text.all_ws " PAD " = false
  /\ Text.trim " PAD " <> "".
Proof.
  assert (({[ "term" := " PAD " ]} : gmap string string) !! "term"
          = Some " PAD ") as Hq by (vm_compute; reflexivity).
  assert (Text.all_ws " PAD " = false) as Hws by (vm_compute; reflexivity).
  split; [exact Hq|]. split; [exact Hws|].
  exact (proj1 (search_asks_for_trimmed_term unreachable day _ fresh " PAD "
                  Hq Hws)).
Defined.

Example search_trims_the_term :
  Text.trim " PAD " = "PAD"
  /\ log (snd (api_loc unreachable day {[ "term" := " PAD " ]} fresh))
     = [CacheGet "fetch:https://gw.brfares.com/legacy_ac_loc?term=PAD";
        Fetch "https://gw.brfares.com/legacy_ac_loc?term=PAD"].
Proof. vm_compute. split; reflexivity. Qed.

(** * Further properties of the frontend *)

(** ** The stations that are loaded *)

Section LoadMore.
Lemma filterM_kept {A} (f : A -> result bool) l r x :
  filterM f l = Ok r -> x ∈ r -> x ∈ l /\ f x = Ok true.
Proof.
  revert r. induction l as [|y l IH]; intros r; simpl.
  - intros [= <-] Hx. by apply elem_of_nil in Hx.
  - destruct (f y) as [keep|e] eqn:Hy; simpl; [|done].
    destruct (filterM f l) as [r'|e]; simpl; [|done].
    intros [= <-] Hx. destruct keep.
    + apply elem_of_cons in Hx as [->|Hx].
      * split; [left|done].
      * destruct (IH r' eq_refl Hx). split; [by right|done].
    + destruct (IH r' eq_refl Hx). split; [by right|done].
Qed.

Lemma has_code_and_coordinates_true s :
  has_code_and_coordinates s = Ok true ->
  truthy (prop s "crs") = true /\ truthy (prop s "lat") = true
  /\ truthy (prop s "long") = true.
Proof.
  unfold has_code_and_coordinates, get, and_also.
  destruct (nullish s); [done|]. simpl. intros [= H].
  destruct (truthy (prop s "crs")) eqn:Hcrs,
    (truthy (prop s "lat")) eqn:Hlat, (truthy (prop s "long")) eqn:Hlong;
    rewrite ?Hcrs, ?Hlat, ?Hlong in H; done.
Qed.
End LoadMore.

(** X10.  Every station that [loadStations] loads from the network is an
    object with exactly the fields [name], [crs], [lat] and [lon], taken
    from one entry of a successful response; its [crs], [lat] and [lon] are
    truthy, and its [lon] is always the entry's [long] (the entry's [lon] is
    never used).  The same list is kept as [cache.stations]. *)
Theorem loaded_stations_are_complete (fetch : string -> reply)
    (st st' : Frontend.state) (x : value) :
  cache_stations st = None ->
  loadStations fetch st = (Ok (), st') ->
  x ∈ STATIONS st' ->
  cache_stations st' = Some (STATIONS st')
  /\ exists status items s,
       fetch "/api/stations" = Response status (Json (VArr items))
       /\ ok status = true
       /\ s ∈ items
       /\ x = VObj [("name", prop s "name"); ("crs", prop s "crs");
                    ("lat", prop s "lat"); ("lon", prop s "long")]
       /\ truthy (prop s "crs") = true /\ truthy (prop s "lat") = true
       /\ truthy (prop s "long") = true.
Proof.
  intros Hcache. unfold loadStations. rewrite Hcache.
  destruct (fetch "/api/stations") as [|status [| |raw]] eqn:Hfetch;
    try (simpl; done).
  unfold json_of. destruct (ok status) eqn:Hok; [|simpl; done].
  change (Ok raw ≫= (fun raw0 => stations_of raw0)) with (stations_of raw).
  destruct (stations_of raw) as [stations|e] eqn:Hstations; [|done].
  intros [= <-]. simpl. intros Hx. split; [done|].
  unfold stations_of in Hstations.
  destruct raw as [| | | | |items|]; try done.
  destruct (filterM has_code_and_coordinates items) as [kept|e] eqn:Hkept;
    simpl in Hstations; [|done].
  injection Hstations as <-.
  apply list_elem_of_In, in_map_iff in Hx as (s & <- & Hs).
  apply list_elem_of_In in Hs.
  destruct (filterM_kept _ _ _ _ Hkept Hs) as [Hin Hkeep].
  apply has_code_and_coordinates_true in Hkeep as (Hcrs & Hlat & Hlong).
  exists status, items, s. repeat split; try done.
  unfold to_station, or_else. by rewrite Hlong.
Qed.

Lemma loaded_stations_are_complete_witness :
  cache_stations (Frontend.State [] None ∅) = None
  /\ cache_stations
       (snd (loadStations
               (fun _ => Response 200
                           (Json (VArr [raw_station "PAD" 51.5154 (-0.1755)])))
               (Frontend.State [] None ∅)))
     = Some (STATIONS
               (snd (loadStations
                       (fun _ => Response 200
                                   (Json (VArr [raw_station "PAD" 51.5154
                                                  (-0.1755)])))
                       (Frontend.State [] None ∅)))).
Proof.
  split; [reflexivity|].
  refine (proj1 (loaded_stations_are_complete
                   (fun _ => Response 200
                               (Json (VArr [raw_station "PAD" 51.5154 (-0.1755)])))
                   (Frontend.State [] None ∅) _
                   (VObj [("name", VStr "PAD"); ("crs", VStr "PAD");
                          ("lat", VNum 51.5154); ("lon", VNum (-0.1755))])
                   eq_refl _ _)).
  - vm_compute. reflexivity.
  - vm_compute. left.
Defined.

(** X11.  Once [loadStations] has succeeded, calling it again succeeds
    without a request and changes nothing, whatever the network would
    answer: the stations are served from [cache.stations]. *)
Theorem loadStations_again_uses_cache (fetch fetch' : string -> reply)
    (st st' : Frontend.state) :
  loadStations fetch st = (Ok (), st') ->
  loadStations fetch' st' = (Ok (), st').
Proof.
  unfold loadStations.
  destruct (cache_stations st) as [cached|] eqn:Hcache.
  - by intros [= <-].
  - destruct (_ ≫= _) as [stations|e]; [|done]. by intros [= <-].
Qed.

Lemma loadStations_again_uses_cache_witness :
  loadStations (fun _ => Response 200 (Json (VArr [on_the_meridian])))
    (Frontend.State [] None ∅)
  = (Ok (), Frontend.State [] (Some []) ∅)
  /\ loadStations (fun _ => Rejected) (Frontend.State [] (Some []) ∅)
     = (Ok (), Frontend.State [] (Some []) ∅).
Proof.
  assert (loadStations (fun _ => Response 200 (Json (VArr [on_the_meridian])))
            (Frontend.State [] None ∅)
          = (Ok (), Frontend.State [] (Some []) ∅)) as Hfirst
    by (vm_compute; reflexivity).
  split; [exact Hfirst|].
  exact (loadStations_again_uses_cache _ (fun _ => Rejected) _ _ Hfirst).
Defined.

(** ** Looking a station up by its code *)

(** X12.  [stationByCRS] always returns an object whose [crs] is the code
    asked for: the first station of [STATIONS] with that code when there is
    one, and otherwise a stand-in whose name is the code itself; the
    stand-in is returned only when no station has the code. *)
Theorem stationByCRS_has_the_code (stations : list value) (code : string) :
  prop (stationByCRS stations code) "crs" = VStr code
  /\ ((exists before after,
         stations = before ++ stationByCRS stations code :: after
         /\ forall s, s ∈ before -> prop s "crs" <> VStr code)
      \/ (stationByCRS stations code
          = VObj [("name", VStr code); ("crs", VStr code)]
          /\ forall s, s ∈ stations -> prop s "crs" <> VStr code)).
Proof.
  unfold stationByCRS.
  induction stations as [|s stations [IHcrs IH]]; simpl.
  - split; [done|]. right. split; [done|]. intros s Hs.
    by apply elem_of_nil in Hs.
  - destruct (prop s "crs") as [| | | |c| |] eqn:Hs;
      try (split; [exact IHcrs|];
           destruct IH as [(before & after & Heq & Hbefore)|[Heq Hnone]];
           [left; exists (s :: before), after; split;
              [simpl; by rewrite <- Heq|];
            intros s' [->|Hs']%elem_of_cons; [by rewrite Hs|by apply Hbefore]
           |right; split; [exact Heq|];
            intros s' [->|Hs']%elem_of_cons; [by rewrite Hs|by apply Hnone]]).
    destruct (String.eqb_spec c code) as [->|Hne]; simpl.
    + split; [done|]. left. exists [], stations. split; [done|].
      intros s' Hs'. by apply elem_of_nil in Hs'.
    + split; [exact IHcrs|].
      destruct IH as [(before & after & Heq & Hbefore)|[Heq Hnone]].
      * left. exists (s :: before), after. split; [simpl; by rewrite <- Heq|].
        intros s' [->|Hs']%elem_of_cons; [|by apply Hbefore].
        rewrite Hs. congruence.
      * right. split; [exact Heq|].
        intros s' [->|Hs']%elem_of_cons; [|by apply Hnone].
        rewrite Hs. congruence.
Qed.

(** ** Distances *)

#[global] Instance Req_decision : RelDecision (@eq R) := Req_dec_T.

Section DistanceFacts.
(** In the quadrant where neither argument is negative, [atan2] is an
    angle between 0 and a quarter turn. *)
Lemma atan2_quadrant y x :
  (0 <= y)%R -> (0 <= x)%R -> (0 <= atan2 y x <= PI / 2)%R.
Proof.
  intros Hy Hx. pose proof PI_RGT_0 as Hpi. unfold atan2.
  destruct (decide (0 < x)%R) as [Hpos|Hnpos].
  - pose proof (atan_bound (y / x)) as [_ Hup].
    split; [|lra].
    destruct (Req_dec_T y 0) as [->|Hy0].
    + replace (0 / x)%R with 0%R by (field; lra). rewrite atan_0. lra.
    + assert (0 < y / x)%R as Hq by (apply Rdiv_lt_0_compat; lra).
      apply atan_increasing in Hq. rewrite atan_0 in Hq. lra.
  - destruct (decide (x < 0)%R); [lra|].
    destruct (decide (0 < y)%R); [lra|].
    destruct (decide (y < 0)%R); lra.
Qed.

Lemma haversine_bounds a b : (0 <= haversine a b <= 6371 * PI)%R.
Proof.
  unfold haversine.
  match goal with
  | |- context [atan2 (sqrt ?u) (sqrt ?v)] =>
      pose proof (atan2_quadrant (sqrt u) (sqrt v) (sqrt_pos u) (sqrt_pos v))
  end.
  lra.
Qed.

Lemma filter_none {A} (P : A -> Prop) `{!forall x, Decision (P x)} (l : list A) :
  (forall x, x ∈ l -> ~ P x) -> filter P l = [].
Proof.
  induction l as [|x l IH]; intros Hall; [done|].
  rewrite filter_cons_False by (apply Hall; left).
  apply IH. intros y Hy. apply Hall. by right.
Qed.

Lemma filter_all {A} (P : A -> Prop) `{!forall x, Decision (P x)} (l : list A) :
  (forall x, x ∈ l -> P x) -> filter P l = l.
Proof.
  induction l as [|x l IH]; intros Hall; [done|].
  rewrite filter_cons_True by (apply Hall; left).
  f_equal. apply IH. intros y Hy. apply Hall. by right.
Qed.

Lemma slice0_nil {A} (n : Z) : slice0 (@nil A) n = [].
Proof. unfold slice0. destruct (n <? 0)%Z; apply take_nil. Qed.


End DistanceFacts.

(** X13.  The distance is symmetric: from [a] to [b] it is what it is from
    [b] to [a]. *)
Theorem haversine_symmetric (a b : LatLon) : haversine a b = haversine b a.
Proof.
  unfold haversine.
  replace (toRadians (lat a - lat b)) with (- toRadians (lat b - lat a))%R
    by (unfold toRadians; lra).
  replace (toRadians (lon a - lon b)) with (- toRadians (lon b - lon a))%R
    by (unfold toRadians; lra).
  replace (- toRadians (lat b - lat a) / 2)%R
    with (- (toRadians (lat b - lat a) / 2))%R by lra.
  replace (- toRadians (lon b - lon a) / 2)%R
    with (- (toRadians (lon b - lon a) / 2))%R by lra.
  rewrite !sin_neg.
  replace ((- sin (toRadians (lat b - lat a) / 2)) ^ 2)%R
    with (sin (toRadians (lat b - lat a) / 2) ^ 2)%R by (simpl; ring).
  replace ((- sin (toRadians (lon b - lon a) / 2)) ^ 2)%R
    with (sin (toRadians (lon b - lon a) / 2) ^ 2)%R by (simpl; ring).
  by rewrite (Rmult_comm (cos (toRadians (lat b))) (cos (toRadians (lat a)))).
Qed.

(** X15.  With a negative radius, or with a limit of 0, no station is
    returned. *)
Theorem findNearbyStations_nothing (stations : list Station)
    (center : LatLon) (radiusKm : R) (limit : Z) :
  (radiusKm < 0)%R \/ limit = 0%Z ->
  findNearbyStations stations center radiusKm limit = [].
Proof.
  intros [Hradius| ->]; unfold findNearbyStations.
  - rewrite filter_none; [apply slice0_nil|].
    intros n Hn. apply list_elem_of_In, in_map_iff in Hn as (s & <- & _).
    simpl. pose proof (haversine_bounds center s). lra.
  - done.
Qed.

Lemma findNearbyStations_nothing_witness :
  ((-1 < 0)%R \/ 5%Z = 0%Z)
  /\ findNearbyStations [CHX] charing_cross (-1) 5 = [].
Proof.
  assert ((-1 < 0)%R \/ 5%Z = 0%Z) as H by (left; lra).
  split; [exact H|].
  exact (findNearbyStations_nothing [CHX] charing_cross (-1) 5 H).
Defined.



(** ** The cheapest fare, further *)

Section CheapestMore.
Lemma assoc_set_prop_ne k k0 v ps :
  k <> k0 -> assoc k (set_prop k0 v ps) = assoc k ps.
Proof.
  intros Hne. induction ps as [|[k' v'] ps IH]; simpl.
  - by rewrite (proj2 (String.eqb_neq k k0) Hne).
  - destruct (String.eqb_spec k0 k') as [->|Hk0]; simpl.
    + by rewrite (proj2 (String.eqb_neq k k') Hne).
    + destruct (String.eqb k k'); [done|apply IH].
Qed.

(** Apart from [p], the object returned has the fields of the fare. *)
Lemma prop_spread_with_ne f k k0 v :
  k <> k0 -> prop (spread_with f k0 v) k = prop f k.
Proof.
  intros Hne. unfold spread_with, prop. rewrite assoc_set_prop_ne by done.
  by destruct f.
Qed.

Lemma mapM_ok {A B} (g : A -> result B) l l' :
  Forall2 (fun x y => g x = Ok y) l l' -> mapM g l = Ok l'.
Proof.
  induction 1 as [|x y l l' Hxy _ IH]; [done|].
  simpl. by rewrite Hxy, IH.
Qed.

(** The element that sorts first: the first one that nothing before it
    ties or beats and nothing after it beats. *)
Lemma sort_head_first {A} (le : A -> A -> bool) l1 x l2 :
  (forall y, y ∈ l1 -> le y x = false) ->
  (forall y, y ∈ l2 -> le x y = true) ->
  head (JS.sort le (l1 ++ x :: l2)) = Some x.
Proof.
  intros Hbefore Hafter. induction l1 as [|y l1 IH].
  - unfold JS.sort. simpl. fold (JS.sort le l2).
    pose proof (sort_perm le l2) as Hperm.
    destruct (JS.sort le l2) as [|z t]; [done|]. simpl.
    rewrite Hafter; [done|]. rewrite <- Hperm. left.
  - unfold JS.sort. simpl. fold (JS.sort le (l1 ++ x :: l2)).
    assert (forall z, z ∈ l1 -> le z x = false) as Hbefore'
      by (intros z Hz; apply Hbefore; by right).
    specialize (IH Hbefore').
    destruct (JS.sort le (l1 ++ x :: l2)) as [|z t]; [done|].
    simpl in IH. injection IH as ->. simpl.
    rewrite Hbefore; [done|left].
Qed.
End CheapestMore.

(** X18.  When [parseCheapestFare] returns a fare, it is one of the fares
    of the response with [p] added: [p] is the number [getPrice] reads from
    that fare, every other field is the fare's own, and no fare of the
    response has a smaller number for a price. *)
Theorem cheapest_fare_is_least (j r : value) :
  parseCheapestFare j = Ok r ->
  truthy r = true ->
  exists fares f p,
    prop j "fares" = VArr fares /\ f ∈ fares
    /\ getPrice f = Ok (VNum p)
    /\ prop r "p" = VNum p
    /\ (forall k, k <> "p" -> prop r k = prop f k)
    /\ forall f' p', f' ∈ fares -> getPrice f' = Ok (VNum p') -> (p <= p')%Q.
Proof.
  intros Hparse Htruthy.
  destruct (parseCheapestFare_least j r Hparse Htruthy)
    as (fares & f & p & Hfares & Hf & Hp & -> & Hleast).
  exists fares, f, p. repeat split; try done.
  - apply prop_spread_with.
  - intros k Hk. by apply prop_spread_with_ne.
Qed.

Lemma cheapest_fare_is_least_witness :
  parseCheapestFare (VObj [("fares", VArr [fare 4500 "SVR"; fare 3200 "OFF"])])
  = Ok (VObj [("adult", VNum 3200); ("ticket", VStr "OFF"); ("p", VNum 3200)])
  /\ exists fares f p,
       prop (VObj [("fares", VArr [fare 4500 "SVR"; fare 3200 "OFF"])]) "fares"
       = VArr fares /\ f ∈ fares /\ getPrice f = Ok (VNum p).
Proof.
  assert (parseCheapestFare
            (VObj [("fares", VArr [fare 4500 "SVR"; fare 3200 "OFF"])])
          = Ok (VObj [("adult", VNum 3200); ("ticket", VStr "OFF");
                      ("p", VNum 3200)])) as Hparse
    by (vm_compute; reflexivity).
  split; [exact Hparse|].
  destruct (cheapest_fare_is_least _ _ Hparse eq_refl)
    as (fares & f & p & Hfares & Hf & Hp & _).
  exists fares, f, p. by repeat split.
Defined.

(** X19.  [parseCheapestFare] throws only when the [fares] array has a
    [null] or [undefined] element; and when it returns without a fare, what
    it returns is [null], and no fare of the response (if it has a [fares]
    array at all) has a number for a price. *)
Theorem parseCheapestFare_without_a_fare (j : value) :
  (forall e, parseCheapestFare j = Throw e ->
     exists fares f,
       prop j "fares" = VArr fares /\ f ∈ fares /\ nullish f = true)
  /\ (forall r, parseCheapestFare j = Ok r -> truthy r = false ->
        r = VNull
        /\ forall fares f p,
             truthy j = true -> prop j "fares" = VArr fares -> f ∈ fares ->
             getPrice f = Ok p -> is_number p = false).
Proof.
  split; [apply parseCheapestFare_throws|].
  intros r. unfold parseCheapestFare.
  destruct (truthy j) eqn:Hj; simpl.
  2:{ intros [= <-] _. split; [done|]. intros; done. }
  destruct (prop j "fares") as [| | | | |fares|] eqn:Hfares;
    try (simpl; intros [= <-] _; split; [done|]; intros; done).
  simpl.
  set (g := fun f => p ← getPrice f; Ok (spread_with f "p" p)).
  destruct (mapM g fares) as [mapped|e] eqn:Hmapped; simpl; [|done].
  apply mapM_Forall2 in Hmapped.
  set (withPrice := filter _ mapped).
  destruct withPrice as [|y rest] eqn:Hwith.
  - simpl. intros [= <-] _. split; [done|].
    intros fares' f p _ [= <-] Hf Hp.
    destruct (is_number p) eqn:Hnum; [|done].
    apply list_elem_of_lookup in Hf as [i Hi].
    destruct (Forall2_lookup_l _ _ _ _ _ Hmapped Hi) as (y & Hy & Hg).
    unfold g in Hg. rewrite Hp in Hg. simpl in Hg. injection Hg as <-.
    assert (spread_with f "p" p ∈ withPrice) as Hin.
    { apply list_elem_of_filter. split.
      - by rewrite prop_spread_with.
      - by eapply list_elem_of_lookup_2. }
    rewrite Hwith in Hin. by apply elem_of_nil in Hin.
  - change (length (y :: rest) =? 0)%nat with false. cbv iota.
    intros Hr Hfalsy. exfalso.
    pose proof (sort_length by_p (y :: rest)) as Hlen.
    pose proof (sort_perm by_p (y :: rest)) as Hperm.
    destruct (JS.sort by_p (y :: rest)) as [|r' t]; [done|].
    simpl in Hr. injection Hr as <-.
    assert (r' ∈ withPrice) as Hin by (rewrite Hwith, <- Hperm; left).
    apply list_elem_of_filter in Hin as [_ Hin].
    apply list_elem_of_lookup in Hin as [i Hi].
    destruct (Forall2_lookup_r _ _ _ _ _ Hmapped Hi) as (f & _ & Hg).
    unfold g in Hg. destruct (getPrice f); simpl in Hg; [|done].
    injection Hg as <-. done.
Qed.

Lemma parseCheapestFare_without_a_fare_witness :
  parseCheapestFare (VObj [("fares", VArr [VObj [("ticket", VStr "SVR")]])])
  = Ok VNull
  /\ VNull = VNull.
Proof.
  assert (parseCheapestFare
            (VObj [("fares", VArr [VObj [("ticket", VStr "SVR")]])])
          = Ok VNull) as Hparse by (vm_compute; reflexivity).
  split; [exact Hparse|].
  exact (proj1 (proj2 (parseCheapestFare_without_a_fare _) VNull Hparse eq_refl)).
Defined.

Section TieFacts.
Context (p : Q).

Lemma priced_elements (Phi : Q -> Prop) (l : list value) :
  Forall (fun f' => exists q, getPrice f' = Ok q
                              /\ (is_number q = true -> Phi (num q))) l ->
  exists ml,
    Forall2 (fun x y => (q ← getPrice x; Ok (spread_with x "p" q)) = Ok y) l ml
    /\ Forall (fun y => is_number (prop y "p") = true -> Phi (num (prop y "p")))
         ml.
Proof.
  induction 1 as [|f' l (q & Hq & Hphi) _ (ml & Hml & Hall)].
  - exists []. by split.
  - exists (spread_with f' "p" q :: ml). split.
    + constructor; [by rewrite Hq|done].
    + constructor; [by rewrite prop_spread_with|done].
Qed.
End TieFacts.

(** X20.  Among fares with the same least price, the first in the response
    wins: when every fare before [f] has no number for a price or a greater
    one, and no fare after [f] has a smaller one, [parseCheapestFare]
    returns [f] (with its price under [p]). *)
Theorem cheapest_fare_tie_goes_to_first (j f : value)
    (before after : list value) (p : Q) :
  truthy j = true ->
  prop j "fares" = VArr (before ++ f :: after) ->
  getPrice f = Ok (VNum p) ->
  Forall (fun f' => exists q, getPrice f' = Ok q
                              /\ (is_number q = true -> (p < num q)%Q)) before ->
  Forall (fun f' => exists q, getPrice f' = Ok q
                              /\ (is_number q = true -> (p <= num q)%Q)) after ->
  parseCheapestFare j = Ok (spread_with f "p" (VNum p)).
Proof.
  intros Hj Hfares Hp Hbefore Hafter.
  apply priced_elements in Hbefore as (mb & Hmb & Hdearer).
  apply priced_elements in Hafter as (ma & Hma & Hnot_cheaper).
  unfold parseCheapestFare. rewrite Hj, Hfares. simpl.
  rewrite (mapM_ok _ (before ++ f :: after)
             (mb ++ spread_with f "p" (VNum p) :: ma)).
  2:{ apply Forall2_app; [done|]. constructor; [by rewrite Hp|done]. }
  simpl.
  rewrite filter_app, filter_cons_True by (by rewrite prop_spread_with).
  set (first := spread_with f "p" (VNum p)).
  set (wb := filter _ mb). set (wa := filter _ ma).
  assert ((length (wb ++ first :: wa) =? 0)%nat = false) as ->.
  { rewrite length_app. simpl. apply Nat.eqb_neq. lia. }
  rewrite (sort_head_first by_p wb first wa); [done|..].
  - intros y [Hnum Hy]%list_elem_of_filter.
    rewrite Forall_forall in Hdearer. specialize (Hdearer y Hy Hnum).
    unfold by_p, first. rewrite prop_spread_with. simpl.
    destruct (Qle_bool (num (prop y "p") - p) 0) eqn:Hle; [|done].
    apply Qle_bool_iff in Hle. Lqa.lra.
  - intros y [Hnum Hy]%list_elem_of_filter.
    rewrite Forall_forall in Hnot_cheaper. specialize (Hnot_cheaper y Hy Hnum).
    unfold by_p, first. rewrite prop_spread_with. simpl.
    by apply Qle_bool_minus.
Qed.

Lemma cheapest_fare_tie_goes_to_first_witness :
  parseCheapestFare
    (VObj [("fares", VArr [fare 4500 "SVR"; fare 3200 "OFF"; fare 3200 "ADV"])])
  = Ok (spread_with (fare 3200 "OFF") "p" (VNum 3200)).
Proof.
  apply (cheapest_fare_tie_goes_to_first _ (fare 3200 "OFF")
           [fare 4500 "SVR"] [fare 3200 "ADV"] 3200).
  - reflexivity.
  - reflexivity.
  - reflexivity.
  - repeat constructor. exists (VNum 4500). split; [reflexivity|].
    intros _. simpl. Lqa.lra.
  - repeat constructor. exists (VNum 3200). split; [reflexivity|].
    intros _. simpl. Lqa.lra.
Defined.

(** ** The fares cache of the page *)

Section FaresCacheFacts.
Context (fetch : string -> reply) (destCRS : string) (opts : options).

#[local] Abbreviation key_of crs := (cacheKey crs destCRS opts).
#[local] Abbreviation step c crs := (snd (getFares fetch crs destCRS opts c)).

(** [getFares] never changes or removes an entry. *)
Lemma getFares_keeps (crs : string) (c : gmap fares_key value)
    (k : fares_key) (j : value) :
  c !! k = Some j -> step c crs !! k = Some j.
Proof.
  intros Hk. unfold getFares.
  destruct (c !! key_of crs) as [cached|] eqn:Hc; [done|].
  destruct (json_of _) as [json|e]; [|done]. simpl.
  rewrite lookup_insert_ne; [done|]. congruence.
Qed.

(** What it returns is in the cache afterwards. *)
Lemma getFares_stores (crs : string) (c : gmap fares_key value) (j : value) :
  fst (getFares fetch crs destCRS opts c) = Ok j ->
  step c crs !! key_of crs = Some j.
Proof.
  unfold getFares.
  destruct (c !! key_of crs) as [cached|] eqn:Hc; [by intros [= <-]|].
  destruct (json_of _) as [json|e]; [|done]. simpl.
  intros [= <-]. apply lookup_insert_eq.
Qed.

(** An entry that is there afterwards was there before or is what was
    returned. *)
Lemma getFares_adds (crs : string) (c : gmap fares_key value)
    (k : fares_key) (j : value) :
  step c crs !! k = Some j ->
  c !! k = Some j
  \/ (k = key_of crs /\ fst (getFares fetch crs destCRS opts c) = Ok j).
Proof.
  unfold getFares.
  destruct (c !! key_of crs) as [cached|] eqn:Hc; [by left|].
  destruct (json_of _) as [json|e]; [|by left]. simpl.
  intros [[<- <-]|[_ Hk]]%lookup_insert_Some; [by right|by left].
Qed.

(** The cache after a list of origins has been asked for, one after the
    other. *)
#[local] Abbreviation after_all c checked :=
  (foldl (fun c crs => step c crs) c checked).

Lemma after_all_keeps (checked : list string) :
  forall (c : gmap fares_key value) (k : fares_key) (j : value),
  c !! k = Some j -> after_all c checked !! k = Some j.
Proof.
  induction checked as [|crs checked IH]; intros c k j Hk; [done|].
  simpl. apply IH. by apply getFares_keeps.
Qed.

Lemma after_all_result (checked : list string) :
  forall (c : gmap fares_key value) (crs : string),
  fst (getFares fetch crs destCRS opts (after_all c checked))
  = fst (getFares fetch crs destCRS opts c).
Proof.
  induction checked as [|crs' checked IH]; intros c crs; [done|].
  simpl. by rewrite IH, getFares_after.
Qed.

Lemma after_all_stores (checked : list string) :
  forall (c : gmap fares_key value) (crs : string) (j : value),
  crs ∈ checked ->
  fst (getFares fetch crs destCRS opts c) = Ok j ->
  after_all c checked !! key_of crs = Some j.
Proof.
  induction checked as [|crs' checked IH]; intros c crs j Hin Hj.
  - by apply elem_of_nil in Hin.
  - simpl. apply elem_of_cons in Hin as [->|Hin].
    + apply after_all_keeps. by apply getFares_stores.
    + apply IH; [done|]. by rewrite getFares_after.
Qed.

Lemma after_all_adds (checked : list string) :
  forall (c : gmap fares_key value) (k : fares_key) (j : value),
  after_all c checked !! k = Some j ->
  c !! k = Some j
  \/ exists crs : string, k = key_of crs /\ fst (getFares fetch crs destCRS opts c) = Ok j.
Proof.
  induction checked as [|crs' checked IH]; intros c k j Hk; [by left|].
  simpl in Hk. apply IH in Hk as [Hk|(crs & -> & Hk)].
  - apply getFares_adds in Hk as [Hk|[-> Hk]]; [by left|right; eauto].
  - right. exists crs. split; [done|]. by rewrite getFares_after in Hk.
Qed.

Lemma compare_loop_cache (stations : list value) (destName : string)
    (checked : list string) : forall (rows : list row) (c : gmap fares_key value),
  snd (compare_loop fetch stations destCRS destName opts checked (rows, c))
  = after_all c checked.
Proof.
  unfold compare_loop.
  induction checked as [|crs checked IH]; intros rows c; [done|].
  cbn [foldl]. by rewrite compare_one_yields, IH.
Qed.

(** With the network gone, the cache left by a comparison gives every
    selected origin the fares it had. *)
Lemma offline_result (checked : list string) (c : gmap fares_key value)
    (crs : string) (j : value) :
  crs ∈ checked ->
  fst (getFares (fun _ => Rejected) crs destCRS opts (after_all c checked)) = Ok j
  <-> fst (getFares fetch crs destCRS opts c) = Ok j.
Proof.
  intros Hin. split.
  - unfold getFares at 1.
    destruct (after_all c checked !! key_of crs) as [cached|] eqn:Hk; [|done].
    simpl. intros [= ->].
    apply after_all_adds in Hk as [Hk|(crs' & Heq & Hk)].
    + unfold getFares. by rewrite Hk.
    + unfold cacheKey in Heq. by injection Heq as ->.
  - intros Hj. pose proof (after_all_stores checked c crs j Hin Hj) as Hst.
    revert Hst. generalize (after_all c checked). intros c' Hst.
    unfold getFares. by rewrite Hst.
Qed.
End FaresCacheFacts.

(** X21.  The page's fares cache: a document [getFares] has returned for an
    origin, destination and options is returned again for the same three
    from then on, without a request and whatever the network does; the
    entries of other requests are left as they were; and a failure leaves
    the cache untouched, so that the request is made again next time. *)
Theorem getFares_remembers (fetch fetch' : string -> reply)
    (orig dest : string) (opts : options) (c : gmap fares_key value) :
  (forall json,
     fst (getFares fetch orig dest opts c) = Ok json ->
     getFares fetch' orig dest opts (snd (getFares fetch orig dest opts c))
     = (Ok json, snd (getFares fetch orig dest opts c)))
  /\ (forall k, k <> cacheKey orig dest opts ->
        snd (getFares fetch orig dest opts c) !! k = c !! k)
  /\ (forall e,
        fst (getFares fetch orig dest opts c) = Throw e ->
        snd (getFares fetch orig dest opts c) = c).
Proof.
  split; [|split].
  - intros json Hjson.
    pose proof (getFares_stores fetch dest opts orig c json Hjson) as Hkey.
    unfold getFares at 1. by rewrite Hkey.
  - intros k Hk. unfold getFares.
    destruct (c !! cacheKey orig dest opts); [done|].
    destruct (json_of _); [|done]. simpl. by rewrite lookup_insert_ne.
  - intros e. unfold getFares.
    destruct (c !! cacheKey orig dest opts); [done|].
    by destruct (json_of _).
Qed.

Lemma getFares_remembers_witness :
  fst (getFares fares_service "PAD" "MAN" single ∅)
  = Ok (VObj [("fares", VArr [fare 4500 "SVR"; fare 3200 "OFF"])])
  /\ fst (getFares (fun _ => Rejected) "PAD" "MAN" single
            (snd (getFares fares_service "PAD" "MAN" single ∅)))
     = Ok (VObj [("fares", VArr [fare 4500 "SVR"; fare 3200 "OFF"])]).
Proof.
  assert (fst (getFares fares_service "PAD" "MAN" single ∅)
          = Ok (VObj [("fares", VArr [fare 4500 "SVR"; fare 3200 "OFF"])]))
    as Hfirst by (vm_compute; reflexivity).
  split; [exact Hfirst|].
  by rewrite (proj1 (getFares_remembers fares_service (fun _ => Rejected)
                       "PAD" "MAN" single ∅) _ Hfirst).
Defined.

(** X22.  A comparison can be repeated without the network: run again on
    the cache the first run left, with every request failing, the
    comparison of the same selection shows the same rows and the same
    status as the first run. *)
Theorem comparison_repeats_offline (fetch : string -> reply)
    (stations : list value) (destCRS destName : string) (opts : options)
    (checked : list string) (c : gmap fares_key value) :
  let first := compare_and_show fetch stations destCRS destName opts checked c in
  fst (compare_and_show (fun _ => Rejected) stations destCRS destName opts
         checked (snd first))
  = fst first.
Proof.
  intros first. subst first. unfold compare_and_show.
  pose proof (compare_loop_yields fetch stations destCRS destName opts
                checked [] c) as Hrows.
  pose proof (compare_loop_cache fetch destCRS opts stations destName
                checked [] c) as Hcache.
  destruct (compare_loop fetch stations destCRS destName opts checked ([], c))
    as [rows c1].
  simpl in Hrows, Hcache. subst rows c1. simpl.
  pose proof (compare_loop_yields (fun _ => Rejected) stations destCRS destName
                opts checked []
                (foldl (fun c crs => snd (getFares fetch crs destCRS opts c))
                   c checked)) as Hrows2.
  destruct (compare_loop (fun _ => Rejected) stations destCRS destName opts
              checked _) as [rows2 c2].
  simpl in Hrows2. subst rows2. simpl.
  assert (omap (yields (fun _ => Rejected) stations destCRS destName opts
                  (foldl (fun c crs => snd (getFares fetch crs destCRS opts c))
                     c checked)) checked
          = omap (yields fetch stations destCRS destName opts c) checked)
    as ->; [|done].
  apply list_omap_ext, Forall_Forall2_diag, Forall_forall.
  intros crs Hin. unfold yields.
  pose proof (offline_result fetch destCRS opts checked c crs) as Hoff.
  destruct (fst (getFares fetch crs destCRS opts c)) as [j|e] eqn:Hfirst.
  - by rewrite (proj2 (Hoff j Hin) eq_refl).
  - destruct (fst (getFares (fun _ => Rejected) crs destCRS opts _))
      as [j'|e'] eqn:Hsecond; [|done].
    by pose proof (proj1 (Hoff j' Hin) eq_refl).
Qed.

(** ** The rows of a comparison *)




Lemma stationByCRS_has_the_code_witness :
  prop (stationByCRS [on_the_meridian; lon_only] "EUS") "crs" = VStr "EUS"
  /\ prop (stationByCRS [on_the_meridian; lon_only] "XXX") "crs" = VStr "XXX".
Proof.
  split.
  - exact (proj1 (stationByCRS_has_the_code [on_the_meridian; lon_only] "EUS")).
  - exact (proj1 (stationByCRS_has_the_code [on_the_meridian; lon_only] "XXX")).
Defined.

(** * What one cached fetch does *)


(** X24.  One call of [cachedFetchJson] reads the cache once, and what
    follows is decided by what the read finds and by the upstream.  When the
    key reads as a truthy value, that value is the result, and nothing more
    happens: no request, no write, no time passes and the cache is as it
    was.  When the key reads as a falsy value, the upstream is asked exactly
    once.  If it answers with a 2xx status and a body that is JSON, that
    document is the result, and it is stored under the URL's key, to expire
    [ttlMs] after the answer arrived, by the one write.  In every other case
    the call throws and writes nothing: the cache is what the read left.  It
    never asks twice, never asks on a hit, and never writes without a
    successful answer. *)
Theorem cachedFetchJson_effects (w : world) (url : string) (ttlMs : Z)
    (s : Server.state) :
  let key := "fetch:" +:+ url in
  let hit := fst (getCache key (now s) (cache s)) in
  let r := cachedFetchJson w url ttlMs s in
  (truthy hit = true ->
   fst r = Ok hit
   /\ log (snd r) = log s ++ [CacheGet key]
   /\ now (snd r) = now s
   /\ cache (snd r) = cache s)
  /\ (truthy hit = false ->
      now (snd r) = (now s + elapsed w url)%Z
      /\ (forall st json,
            upstream w url = Response st (Json json) -> ok st = true ->
            fst r = Ok json
            /\ log (snd r) = log s ++ [CacheGet key; Fetch url; CacheSet key]
            /\ cache (snd r)
               = <[key := Entry json (now s + elapsed w url + ttlMs)]>
                   (snd (getCache key (now s) (cache s))))
      /\ ((forall st json,
             upstream w url = Response st (Json json) -> ok st = false) ->
          (exists e, fst r = Throw e)
          /\ log (snd r) = log s ++ [CacheGet key; Fetch url]
          /\ cache (snd r) = snd (getCache key (now s) (cache s)))).
Proof.
  intros key hit r. subst key hit r. unfold cachedFetchJson.
  rewrite getCacheS_spec. split.
  - intros Hhit. rewrite Hhit. simpl. split; [done|]. split; [done|].
    split; [done|]. revert Hhit. unfold getCache.
    destruct (cache s !! ("fetch:" +:+ url)) as [e|]; [|done].
    by destruct (now s >? expires e)%Z.
  - intros Hhit. rewrite Hhit. split; [|split].
    + destruct (upstream w url) as [|st b]; [done|].
      by destruct (negb (ok st)), b.
    + intros st json -> ->. simpl.
      split; [reflexivity|]. split; [|reflexivity].
      by rewrite <- !app_assoc.
    + intros Hfail. destruct (upstream w url) as [|st b].
      * simpl. rewrite <- app_assoc. eauto.
      * destruct (ok st) eqn:Hok, b; simpl; rewrite <- ?app_assoc; eauto.
        specialize (Hfail st v eq_refl). congruence.
Qed.

Lemma cachedFetchJson_effects_witness :
  truthy (fst (getCache ("fetch:" +:+ "u") (now fresh) (cache fresh))) = false
  /\ upstream (answers (VArr [])) "u" = Response 200 (Json (VArr []))
  /\ fst (cachedFetchJson (answers (VArr [])) "u" 600000 fresh) = Ok (VArr [])
  /\ truthy (fst (getCache ("fetch:" +:+ "u") (now (holding (VArr [])))
                    (cache (holding (VArr []))))) = true
  /\ fst (cachedFetchJson unreachable "u" 600000 (holding (VArr [])))
     = Ok (fst (getCache ("fetch:" +:+ "u") (now (holding (VArr [])))
                  (cache (holding (VArr []))))).
Proof.
  assert (truthy (fst (getCache ("fetch:" +:+ "u") (now fresh) (cache fresh)))
          = false) as Hmiss by (vm_compute; reflexivity).
  assert (upstream (answers (VArr [])) "u" = Response 200 (Json (VArr [])))
    as Hup by reflexivity.
  assert (truthy (fst (getCache ("fetch:" +:+ "u") (now (holding (VArr [])))
                         (cache (holding (VArr []))))) = true) as Hhit
    by (vm_compute; reflexivity).
  split; [exact Hmiss|]. split; [exact Hup|].
  split.
  - exact (proj1 (proj1 (proj2 (proj2 (cachedFetchJson_effects
             (answers (VArr [])) "u" 600000 fresh) Hmiss))
             200%positive (VArr []) Hup eq_refl)).
  - split; [exact Hhit|].
    exact (proj1 (proj1 (cachedFetchJson_effects unreachable "u" 600000
                           (holding (VArr []))) Hhit)).
Defined.

(** * The "Select all" button *)

Section ToggleFacts.
Lemma selectAllNearby_values b boxes :
  map box_value (selectAllNearby b boxes) = map box_value boxes.
Proof. unfold selectAllNearby. rewrite map_map. by apply map_ext. Qed.

Lemma checked_values_all boxes :
  checked_values (selectAllNearby true boxes) = map box_value boxes.
Proof.
  unfold checked_values, selectAllNearby.
  induction boxes as [|cb boxes IH]; [done|].
  cbn [map]. rewrite filter_cons_True by done. cbn [map box_value].
  by rewrite IH.
Qed.

Lemma checked_values_none boxes :
  checked_values (selectAllNearby false boxes) = [].
Proof.
  unfold checked_values, selectAllNearby.
  induction boxes as [|cb boxes IH]; [done|].
  cbn [map]. by rewrite filter_cons_False.
Qed.

Lemma checked_values_every boxes :
  forallb box_checked boxes = true ->
  checked_values boxes = map box_value boxes.
Proof.
  unfold checked_values. induction boxes as [|cb boxes IH]; [done|].
  cbn [forallb]. intros [Hcb Hrest]%andb_prop.
  rewrite filter_cons_True by done. cbn [map]. by rewrite IH.
Qed.
End ToggleFacts.

(** X25.  A click on the toggle never leaves a mixed selection, and which
    way it goes is decided by the boxes as they were.  When there is at
    least one box and every box was checked, the click clears them all: no
    box is checked afterwards, a comparison started then has nothing
    selected, and the button reads "Select all".  In every other case (some
    box was not checked, or there is no box at all) the click checks them
    all: every box is checked afterwards, the comparison will run for every
    station listed, and the button reads "Clear all".  The boxes, their
    values and their order stay as they were. *)
Theorem toggle_click_all_or_nothing (boxes : list checkbox) :
  let after := fst (toggle_click boxes) in
  let label := snd (toggle_click boxes) in
  map box_value after = map box_value boxes
  /\ (boxes <> [] -> Forall (fun cb => box_checked cb = true) boxes ->
      Forall (fun cb => box_checked cb = false) after
      /\ checked_values after = []
      /\ label = "Select all")
  /\ (boxes = [] \/ Exists (fun cb => box_checked cb = false) boxes ->
      Forall (fun cb => box_checked cb = true) after
      /\ checked_values after = map box_value boxes
      /\ label = "Clear all").
Proof.
  unfold toggle_click. cbn [fst snd].
  split; [apply selectAllNearby_values|]. split.
  - intros Hne Hall. destruct boxes as [|cb boxes]; [done|].
    change (length (cb :: boxes) =? 0)%nat with false. cbv iota.
    assert (forallb box_checked (cb :: boxes) = true) as ->.
    { apply forallb_forall. intros x Hx%list_elem_of_In.
      rewrite Forall_forall in Hall. by apply Hall. }
    cbn [negb]. split; [|split; [apply checked_values_none|done]].
    unfold selectAllNearby. by apply Forall_map, Forall_true.
  - intros Hsome.
    assert ((if (length boxes =? 0)%nat then false
             else forallb box_checked boxes) = false) as ->.
    { destruct Hsome as [->|Hex]; [done|].
      destruct (length boxes =? 0)%nat; [done|].
      apply not_true_is_false. intros Hall.
      apply Exists_exists in Hex as (x & Hx & Hfalse).
      rewrite forallb_forall in Hall.
      specialize (Hall x (proj1 (list_elem_of_In _ _) Hx)). congruence. }
    cbn [negb]. split; [|split; [apply checked_values_all|done]].
    unfold selectAllNearby. by apply Forall_map, Forall_true.
Qed.

Lemma toggle_click_all_or_nothing_witness :
  [Checkbox "PAD" true; Checkbox "EUS" true] <> []
  /\ Forall (fun cb => box_checked cb = true)
       [Checkbox "PAD" true; Checkbox "EUS" true]
  /\ checked_values
       (fst (toggle_click [Checkbox "PAD" true; Checkbox "EUS" true])) = []
  /\ Exists (fun cb => box_checked cb = false)
       [Checkbox "PAD" true; Checkbox "EUS" false]
  /\ checked_values
       (fst (toggle_click [Checkbox "PAD" true; Checkbox "EUS" false]))
     = ["PAD"; "EUS"].
Proof.
  assert ([Checkbox "PAD" true; Checkbox "EUS" true] <> []) as Hne
    by discriminate.
  assert (Forall (fun cb => box_checked cb = true)
            [Checkbox "PAD" true; Checkbox "EUS" true]) as Hall
    by (repeat constructor).
  assert (Exists (fun cb => box_checked cb = false)
            [Checkbox "PAD" true; Checkbox "EUS" false]) as Hex
    by (right; left; reflexivity).
  split; [exact Hne|]. split; [exact Hall|]. split.
  - exact (proj1 (proj2 (proj1 (proj2 (toggle_click_all_or_nothing
             [Checkbox "PAD" true; Checkbox "EUS" true])) Hne Hall))).
  - split; [exact Hex|].
    exact (proj1 (proj2 (proj2 (proj2 (toggle_click_all_or_nothing
             [Checkbox "PAD" true; Checkbox "EUS" false]))
             (or_intror Hex)))).
Defined.

Example toggle_click_scenario :
  toggle_click [Checkbox "PAD" true; Checkbox "EUS" false]
  = ([Checkbox "PAD" true; Checkbox "EUS" true], "Clear all")
  /\ toggle_click [Checkbox "PAD" true; Checkbox "EUS" true]
     = ([Checkbox "PAD" false; Checkbox "EUS" false], "Select all")
  /\ toggle_click [] = ([], "Clear all").
Proof. repeat split. Qed.
